(** * MP3-Splitter: the split-point and time-code core of [main.py]

    A shallow embedding of the parts of [MP3SplitterApp] that decide where
    tracks begin and end: the [mm:ss] time codec ([ms_to_mmss], [mmss_to_ms]),
    the manual split points and the segment list derived from them
    ([on_waveform_click], [add_manual_split_from_entry],
    [update_manual_split_segments]), the auto-split pass
    ([auto_split_on_param_change], [run_auto_split_task] and its
    [update_tree]) and the ZIP export ([download_segments_zip]).
    [run_split_task] builds its time stamps with the same loop as
    [run_auto_split_task]; its starter [start_splitting_thread] is bound to
    no widget, so only the loop is modelled.

    Conventions.
    - Python [int] is [Z]; [//] and [%] with a positive divisor are [Z.div]
      and [Z.modulo] (both round towards minus infinity).
    - A Python [str] is a [string] whose characters are read as the code
      points 0..255.  The interpreter's optional limit on the number of
      digits of an integer conversion is not modelled.
    - An exception is a value of the error type: [None] for the [ValueError]
      of [int()], an [outcome] for the handlers that let it escape.
    - Calls into Tk, pydub, pygame and the file system are recorded as a
      list of [effect]s or [mixer_call]s, in program order.  Where the code
      handles or can meet the failure of such a call (decoding a file,
      starting playback), what the call comes to is an argument of the
      handler. *)

From Stdlib Require Import ZArith Ascii String DecimalString DecimalN.
From stdpp Require Import base numbers option list sorting gmap strings.

Local Open Scope Z_scope.

(** ** Characters and text *)

Module Text.

(** The characters [int()] skips around a number: tab, LF, VT, FF, CR,
    space, and, above 127, NEL and NBSP. *)
Definition int_space (c : ascii) : bool :=
  match c with
  | "009" | "010" | "011" | "012" | "013" | " " | "133" | "160" => true
  | _ => false
  end%char.

(** The characters [str.strip()] removes: those of [int_space] and the
    four separators FS, GS, RS, US. *)
Definition str_space (c : ascii) : bool :=
  match c with
  | "028" | "029" | "030" | "031" => true
  | _ => int_space c
  end%char.

Definition is_digit (c : ascii) : bool :=
  match c with
  | "0" | "1" | "2" | "3" | "4" | "5" | "6" | "7" | "8" | "9" => true
  | _ => false
  end%char.

Fixpoint lstrip (sp : ascii → bool) (s : string) : string :=
  match s with
  | EmptyString => EmptyString
  | String c r => if sp c then lstrip sp r else s
  end.

Fixpoint rstrip (sp : ascii → bool) (s : string) : string :=
  match s with
  | EmptyString => EmptyString
  | String c r =>
      match rstrip sp r with
      | EmptyString => if sp c then EmptyString else String c EmptyString
      | r' => String c r'
      end
  end.

(** [s.strip()] *)
Definition strip (s : string) : string := rstrip str_space (lstrip str_space s).

(** [sep in s] *)
Fixpoint contains (sep : ascii) (s : string) : bool :=
  match s with
  | EmptyString => false
  | String c r => if decide (c = sep) then true else contains sep r
  end.

(** [s.split(sep)] for a one-character separator: one part more than
    there are separators, empty parts kept. *)
Fixpoint split (sep : ascii) (s : string) : list string :=
  match s with
  | EmptyString => [EmptyString]
  | String c r =>
      if decide (c = sep) then EmptyString :: split sep r
      else match split sep r with
           | h :: t => String c h :: t
           | [] => [String c EmptyString]
           end
  end.

(** How often [sep] occurs in [s]. *)
Fixpoint count (sep : ascii) (s : string) : nat :=
  match s with
  | EmptyString => O
  | String c r => if decide (c = sep) then S (count sep r) else count sep r
  end.

Fixpoint all_digits (s : string) : bool :=
  match s with
  | EmptyString => true
  | String c r => is_digit c && all_digits r
  end.

(** The digit groups of a decimal literal: digits, single underscores
    allowed between two digits only.  Returns the digits without the
    underscores. *)
Fixpoint digit_groups (prev_digit : bool) (s : string) : option string :=
  match s with
  | EmptyString => if prev_digit then Some EmptyString else None
  | String c r =>
      if is_digit c then String c <$> digit_groups true r
      else if decide (c = "_"%char) then
        if prev_digit then digit_groups false r else None
      else None
  end.

(** [int(s)] in base ten; [None] is [ValueError]. *)
Definition int (s : string) : option Z :=
  let t := rstrip int_space (lstrip int_space s) in
  let '(negative, body) :=
    match t with
    | String "-" r => (true, r)
    | String "+" r => (false, r)
    | _ => (false, t)
    end in
  ds ← digit_groups false body;
  u ← NilEmpty.uint_of_string ds;
  let n := Z.of_N (N.of_uint u) in
  Some (if negative then - n else n).

(** The decimal digits of a natural number, ["0"] for zero. *)
Definition decimal (n : N) : string := NilZero.string_of_uint (N.to_uint n).

Fixpoint zeros (k : nat) : string :=
  match k with O => EmptyString | S k' => String "0" (zeros k') end.

(** Zero padding of a digit string to [width] characters. *)
Definition zfill (width : nat) (ds : string) : string :=
  zeros (width - String.length ds) +:+ ds.

(** The format [{z:02d}]: sign-aware zero padding to two characters. *)
Definition format_02d (z : Z) : string :=
  if decide (z < 0) then String "-" (zfill 1 (decimal (Z.to_N (- z))))
  else zfill 2 (decimal (Z.to_N z)).

End Text.

(** ** Time codec *)

(** [ms_to_mmss]: milliseconds to the [mm:ss] text. *)
Definition ms_to_mmss (ms : Z) : string :=
  let seconds := ms / 1000 in
  let mins := seconds / 60 in
  let secs := seconds mod 60 in
  Text.format_02d mins +:+ ":" +:+ Text.format_02d secs.

(** The arithmetic shared by every place that reads a time: the two parts
    go through [int()], minutes first. *)
Definition mins_secs_to_ms (mins secs : string) : option Z :=
  m ← Text.int mins;
  s ← Text.int secs;
  Some ((m * 60 + s) * 1000).

(** [mmss_to_ms]: [mm:ss] or [ss] text to milliseconds; more than two parts
    read as ["0"], ["0"]. *)
Definition mmss_to_ms (mmss : string) : option Z :=
  match Text.split ":" mmss with
  | [mins; secs] => mins_secs_to_ms mins secs
  | [secs] => mins_secs_to_ms "0" secs
  | _ => mins_secs_to_ms "0" "0"
  end.

(** ** Application state *)

Inductive status_type := info | success | warning | error.

(** One line of [timestamp_tree]: the values [(track, start, end)], the two
    times as the [mm:ss] text they were inserted with. *)
Record row := Row { track : Z; start_text : string; end_text : string }.

(** The fields of [MP3SplitterApp] that the split logic reads or writes.
    [source_file_path] is the Tk variable's text ([""] while unset),
    [status] the text and kind last given to the status bar.  Canvas lines,
    playhead and animations are left out. *)
Record App := mkApp {
  source_file_path : string;
  current_audio_path : option string;
  audio_duration_ms : Z;
  split_points : list Z;
  timestamp_tree : list row;
  status : string * status_type
}.

Definition set_split_points (ps : list Z) (a : App) : App :=
  mkApp (source_file_path a) (current_audio_path a) (audio_duration_ms a)
        ps (timestamp_tree a) (status a).

Definition set_timestamp_tree (rows : list row) (a : App) : App :=
  mkApp (source_file_path a) (current_audio_path a) (audio_duration_ms a)
        (split_points a) rows (status a).

(** [update_status(message, status_type)] *)
Definition update_status (message : string) (kind : status_type) (a : App) : App :=
  mkApp (source_file_path a) (current_audio_path a) (audio_duration_ms a)
        (split_points a) (timestamp_tree a) (message, kind).

(** The state [__init__] leaves. *)
Definition init : App := mkApp "" None 0 [] [] ("", info).

(** ** Split points and the segments derived from them *)

(** A segment before it is displayed: 1-based ordinal, start and end in ms. *)
Record segment := Segment { ordinal : Z; start_ms : Z; end_ms : Z }.

(** [sorted(set(l))] on integers. *)
Definition sorted_set (l : list Z) : list Z :=
  merge_sort Z.le (elements (list_to_set l : gset Z)).

(** The list [points] of [update_manual_split_segments]:
    [sorted(set([0] + split_points + ([duration] if duration else [])))],
    then the points outside [0 <= p <= duration] removed. *)
Definition boundary_points (duration : Z) (points : list Z) : list Z :=
  filter (λ p, 0 ≤ p ≤ duration)
    (sorted_set ([0] ++ points ++ (if decide (duration = 0) then [] else [duration]))).

(** The loop [for i in range(len(points)-1)]: one segment
    [(i+1, points[i], points[i+1])] per index. *)
Definition consecutive (points : list Z) : list segment :=
  (λ i : nat, Segment (Z.of_nat i + 1) (points !!! i) (points !!! S i))
    <$> seq 0 (length points - 1).

Definition derive_segments (duration : Z) (points : list Z) : list segment :=
  consecutive (boundary_points duration points).

(** What [timestamp_tree.insert] receives for a segment. *)
Definition display (s : segment) : row :=
  Row (ordinal s) (ms_to_mmss (start_ms s)) (ms_to_mmss (end_ms s)).

(** [update_manual_split_segments]: the tree is emptied and refilled from
    the stored split points. *)
Definition update_manual_split_segments (a : App) : App :=
  set_timestamp_tree
    (display <$> derive_segments (audio_duration_ms a) (split_points a)) a.

(** [max(0, min(ms, duration))] *)
Definition clamp (duration ms : Z) : Z := Z.max 0 (Z.min ms duration).

(** A click on the canvas.  [inaxes] is [event.inaxes == self.ax]; [click_ms]
    is the value of [int((xdata / total_samples) * duration)], whose floating
    point computation is not modelled. *)
Record click := Click { inaxes : bool; click_ms : Z }.

(** [on_waveform_click]: the clamped point is appended without a membership
    test. *)
Definition on_waveform_click (ev : click) (a : App) : App :=
  if negb (inaxes ev) || bool_decide (audio_duration_ms a = 0) then a
  else
    let ms := clamp (audio_duration_ms a) (click_ms ev) in
    update_manual_split_segments (set_split_points (split_points a ++ [ms]) a).

(** The block shared by [add_manual_split_from_entry],
    [auto_split_on_param_change] and [start_splitting_thread]: the entry text
    as [mm:ss], or as seconds when it has no colon.  [None] is the
    [ValueError] of the block, raised by [int()] or by the [else] branch. *)
Definition parse_entry (time_str : string) : option Z :=
  if Text.contains ":" time_str then
    match Text.split ":" time_str with
    | [mins; secs] => mins_secs_to_ms mins secs
    | [secs] => mins_secs_to_ms "0" secs
    | _ => None
    end
  else
    n ← Text.int time_str; Some (n * 1000).

(** [add_manual_split_from_entry], [entry] being the text of
    [min_silence_entry]. *)
Definition add_manual_split_from_entry (entry : string) (a : App) : App :=
  let time_str := Text.strip entry in
  if decide (audio_duration_ms a = 0) then update_status "No audio loaded." error a
  else
    match parse_entry time_str with
    | None => update_status "Invalid time format. Use mm:ss or seconds." error a
    | Some ms0 =>
        let ms := clamp (audio_duration_ms a) ms0 in
        let a1 :=
          if decide (ms ∈ split_points a) then a
          else set_split_points (split_points a ++ [ms]) a in
        update_status ("Added split point at " +:+ ms_to_mmss ms) success
          (update_manual_split_segments a1)
    end.

(** [add_manual_splits], the handler of the [Split (Manual)] button: the
    same derivation, followed by a status line with the number of stored
    points. *)
Definition add_manual_splits (a : App) : App :=
  update_status
    ("Added " +:+ Text.decimal (N.of_nat (length (split_points a)))
       +:+ " manual split points") success
    (update_manual_split_segments a).

(** [refresh_split_parameters] and [refresh_split_lines] as far as the split
    state goes: the points are dropped and the panel shows the whole file
    ([reset_split_segments_panel]). *)
Definition reset_split_segments_panel (a : App) : App :=
  set_timestamp_tree
    (if decide (audio_duration_ms a = 0) then []
     else [Row 1 (ms_to_mmss 0) (ms_to_mmss (audio_duration_ms a))]) a.

Definition refresh_split_parameters (a : App) : App :=
  update_status "Reset all parameters" info
    (reset_split_segments_panel (set_split_points [] a)).

(** ** Splitting on silence *)

(** What the two pydub calls of a task, [AudioSegment.from_mp3] and
    [split_on_silence], hand back: an exception with its text, or the
    chunks. *)
Inductive engine_result (A : Type) :=
| Raised (e : string)
| Chunks (chunks : list A).
Arguments Raised {A} e.
Arguments Chunks {A} chunks.

Section Tasks.

(** pydub's audio type and its [len()], the duration in ms. *)
Context {AudioSegment : Type} (len : AudioSegment → Z).

(** One turn of the loop [for i, chunk in enumerate(chunks)], on the pair
    [(timestamps, current_pos)]. *)
Definition timestamps_step (acc : list segment * Z) (ic : nat * AudioSegment)
  : list segment * Z :=
  let start := acc.2 in
  let stop := acc.2 + len ic.2 in
  (acc.1 ++ [Segment (Z.of_nat ic.1 + 1) start stop], stop).

(** The list [timestamps] both tasks build, starting from
    [timestamps = []] and [current_pos = 0]. *)
Definition timestamps (chunks : list AudioSegment) : list segment :=
  (foldl timestamps_step ([], 0) (imap pair chunks)).1.

(** [sum(len(c) for c in chunks)], the reference the time stamps are
    compared with. *)
Definition total_len (chunks : list AudioSegment) : Z :=
  foldr (λ c acc, len c + acc) 0 chunks.

(** The callback [update_tree] of [run_auto_split_task]: the rows are
    appended to whatever the tree holds when the main loop runs it. *)
Definition update_tree (ts : list segment) (a : App) : App :=
  update_status
    ("Auto split complete! Found " +:+ Text.decimal (N.of_nat (length ts))
       +:+ " tracks.") success
    (set_timestamp_tree (timestamp_tree a ++ (display <$> ts)) a).

(** [run_auto_split_task]: the new state and the [update_tree] handed to
    [root.after(0, ...)], if any. *)
Definition run_auto_split_task (res : engine_result AudioSegment) (a : App)
  : App * option (list segment) :=
  let a1 := update_status "Splitting on silence (auto)..." info a in
  match res with
  | Raised e => (update_status ("Auto split error: " +:+ e) error a1, None)
  | Chunks [] =>
      (update_status "No silence found to split on. Try adjusting parameters."
         warning a1, None)
  | Chunks chunks => (a1, Some (timestamps chunks))
  end.

(** [auto_split_on_param_change]: the new state and the arguments of the
    thread it starts, if it starts one. *)
Definition auto_split_on_param_change (entry : string) (a : App)
  : App * option (string * Z) :=
  if decide (source_file_path a = "") then (a, None)
  else
    match parse_entry (Text.strip entry) with
    | None =>
        (update_status "Invalid splitting parameter. Please use mm:ss format."
           error a, None)
    | Some min_silence_len =>
        (set_timestamp_tree [] a, Some (source_file_path a, min_silence_len))
    end.

(** *** The handlers and the worker threads together

    [running] are the threads started and not yet finished, [scheduled]
    the [update_tree] callbacks waiting in the Tk queue, oldest first.
    A thread shares nothing with the handlers but the status bar, so its
    two status writes are taken together with its end. *)
Record World := mkWorld {
  app : App;
  running : list (string * Z);
  scheduled : list (list segment)
}.

Inductive event :=
| ParamChange (entry : string)
    (** [<Return>] or [<FocusOut>] on the entry *)
| TaskDone (i : nat) (res : engine_result AudioSegment)
    (** the [i]-th running thread gets [res] from pydub and ends *)
| RunScheduled
    (** the main loop runs the oldest scheduled callback *)
| WaveformClick (ev : click)
| SplitButton (entry : string).

Definition step (w : World) (ev : event) : World :=
  match ev with
  | ParamChange entry =>
      let '(a, th) := auto_split_on_param_change entry (app w) in
      mkWorld a (running w ++ option_list th) (scheduled w)
  | TaskDone i res =>
      match running w !! i with
      | None => w
      | Some _ =>
          let '(a, cb) := run_auto_split_task res (app w) in
          mkWorld a (delete i (running w)) (scheduled w ++ option_list cb)
      end
  | RunScheduled =>
      match scheduled w with
      | [] => w
      | ts :: rest => mkWorld (update_tree ts (app w)) (running w) rest
      end
  | WaveformClick ev => mkWorld (on_waveform_click ev (app w)) (running w) (scheduled w)
  | SplitButton entry =>
      mkWorld (add_manual_split_from_entry entry (app w)) (running w) (scheduled w)
  end.

Definition run (w : World) (evs : list event) : World := foldl step w evs.

(** The events of an auto-split pass, as opposed to the user's edits of the
    split points. *)
Definition auto_split_event (ev : event) : bool :=
  match ev with
  | ParamChange _ | TaskDone _ _ | RunScheduled => true
  | WaveformClick _ | SplitButton _ => false
  end.

End Tasks.

(** ** Export *)

(** The calls [download_segments_zip] makes outside the program, in the
    order it makes them.  [export name s e] stands for
    [audio[s:e].export(os.path.join(temp_dir, name), format='mp3',
    bitrate='192k')], [zip_write name] for the [zipf.write] of that file.
    Writing the files is taken to succeed; decoding the audio is not, see
    [decode_result]. *)
Inductive effect :=
| showerror (title message : string)
| showinfo (title message : string)
| asksaveasfilename
| from_mp3 (path : string)
| mkdtemp
| export (name : string) (start_ms end_ms : Z)
| zip_open (zip_path : string)
| zip_write (name : string)
| rmtree.

(** What [AudioSegment.from_mp3(self.current_audio_path)] comes to when
    export calls it: the audio, or an exception with its text (the file of
    a failed load is still the current one). *)
Inductive decode_result :=
| Decoded
| DecodeRaised (e : string).

(** How a handler ends: it returns, or an exception leaves it, the
    [ValueError] of [mmss_to_ms] or the one [from_mp3] raised. *)
Inductive outcome :=
| Returned
| ValueError
| DecodeError (e : string).

(** [f'track_{track:02d}.mp3'] *)
Definition track_name (track : Z) : string :=
  "track_" +:+ Text.format_02d track +:+ ".mp3".

(** The loop over [segments]: the slice bounds are read back from the two
    texts of the row, start first.  The loop stops at the first row whose
    text [mmss_to_ms] rejects; the files written before stay written. *)
Fixpoint export_loop (segments : list row) : list effect * list string * outcome :=
  match segments with
  | [] => ([], [], Returned)
  | r :: rest =>
      match mmss_to_ms (start_text r), mmss_to_ms (end_text r) with
      | Some s, Some e =>
          let '(effs, paths, o) := export_loop rest in
          (export (track_name (track r)) s e :: effs, track_name (track r) :: paths, o)
      | _, _ => ([], [], ValueError)
      end
  end.

(** Python's truth value of [self.current_audio_path]. *)
Definition has_audio (a : App) : bool :=
  match current_audio_path a with
  | None => false
  | Some path => negb (bool_decide (path = ""))
  end.

(** [download_segments_zip].  [answer] is what the save dialog returns when
    it is shown, [""] when the user cancels; [decoded] what [from_mp3] comes
    to when it is called.  The handler has no [try]: an exception of
    [from_mp3] leaves it before the temporary directory is made. *)
Definition download_segments_zip (answer : string) (decoded : decode_result) (a : App)
  : App * list effect * outcome :=
  let segments := timestamp_tree a in
  if bool_decide (segments = []) || negb (has_audio a) then
    (a, [showerror "Error" "No segments to export or no audio loaded."], Returned)
  else if decide (answer = "") then (a, [asksaveasfilename], Returned)
  else
    match decoded with
    | DecodeRaised e =>
        (a, [asksaveasfilename; from_mp3 (default "" (current_audio_path a))],
         DecodeError e)
    | Decoded =>
        let '(effs, mp3_paths, o) := export_loop segments in
        let before :=
          [asksaveasfilename; from_mp3 (default "" (current_audio_path a)); mkdtemp]
            ++ effs in
        match o with
        | Returned =>
            let n := Text.decimal (N.of_nat (length mp3_paths)) in
            (update_status ("Exported " +:+ n +:+ " segments to ZIP") success a,
             before ++ [zip_open answer] ++ (zip_write <$> mp3_paths)
               ++ [rmtree; showinfo "Success"
                     ("Exported " +:+ n +:+ " segments to ZIP:" +:+ String "010" answer)],
             Returned)
        | o' => (a, before, o')
        end
    end.

(** The slices an effect list cuts out of the audio. *)
Definition slices (effs : list effect) : list (Z * Z) :=
  omap (λ e, match e with export _ s e => Some (s, e) | _ => None end) effs.

(** The export of a segment cut at whole seconds, the reference the loop
    is compared with. *)
Definition export_of (s : segment) : effect :=
  export (track_name (ordinal s)) (start_ms s / 1000 * 1000) (end_ms s / 1000 * 1000).

(** Whether an effect touches the file system to write. *)
Definition writes (e : effect) : bool :=
  match e with
  | mkdtemp | export _ _ _ | zip_open _ | zip_write _ => true
  | _ => false
  end.

(** ** Loading a file, resetting, and a whole session *)

(** What the body of [plot_waveform]'s [try] comes to: an exception with its
    text, from [AudioSegment.from_mp3] or from the drawing code, or the
    [len(audio)] it stores, which is never negative. *)
Inductive load_result :=
| LoadFailed (e : string)
| Loaded (duration : N).

Definition set_source_file_path (path : string) (a : App) : App :=
  mkApp path (current_audio_path a) (audio_duration_ms a)
        (split_points a) (timestamp_tree a) (status a).

Definition set_current_audio_path (path : option string) (a : App) : App :=
  mkApp (source_file_path a) path (audio_duration_ms a)
        (split_points a) (timestamp_tree a) (status a).

Definition set_audio_duration_ms (duration : Z) (a : App) : App :=
  mkApp (source_file_path a) (current_audio_path a) duration
        (split_points a) (timestamp_tree a) (status a).

(** [plot_waveform]: either way the stored points are dropped; a failure
    leaves the duration 0 and an error in the status bar. *)
Definition plot_waveform (res : load_result) (a : App) : App :=
  match res with
  | Loaded duration =>
      set_split_points [] (set_audio_duration_ms (Z.of_N duration) a)
  | LoadFailed e =>
      update_status ("Error loading file: " +:+ e) error
        (set_split_points [] (set_audio_duration_ms 0 a))
  end.

(** [refresh_split_lines], the [Refresh] button under the waveform, as far
    as the split state goes. *)
Definition refresh_split_lines (a : App) : App :=
  update_status "Reset all split points and playback" info
    (reset_split_segments_panel (set_split_points [] a)).

Section Session.

Context {AudioSegment : Type} (len : AudioSegment → Z).

(** [os.path.basename], which depends on the platform. *)
Context (basename : string → string).

(** [select_source_file].  [answer] is what the open dialog returns, [""]
    when the user cancels; [res] what loading that file comes to; [entry]
    the text of [min_silence_entry] at that moment.  Returns the new state
    and the arguments of the thread [auto_split_on_param_change] starts. *)
Definition select_source_file (answer : string) (res : load_result)
    (entry : string) (a : App) : App * option (string * Z) :=
  if decide (answer = "") then (a, None)
  else
    let a1 := set_source_file_path answer a in
    let a2 := update_status ("Selected file: " +:+ basename answer) success a1 in
    let a3 := plot_waveform res a2 in
    let a4 := set_current_audio_path (Some answer) a3 in
    auto_split_on_param_change entry a4.

(** Everything the user and the threads can do to the split state. *)
Inductive command :=
| Handler (ev : @event AudioSegment)
| SelectSourceFile (answer : string) (res : load_result) (entry : string)
| AddManualSplits
| RefreshSplitParameters
| RefreshSplitLines
| DownloadSegmentsZip (answer : string) (decoded : decode_result).

Definition exec (w : World) (c : command) : World :=
  match c with
  | Handler ev => step len w ev
  | SelectSourceFile answer res entry =>
      let '(a, th) := select_source_file answer res entry (app w) in
      mkWorld a (running w ++ option_list th) (scheduled w)
  | AddManualSplits => mkWorld (add_manual_splits (app w)) (running w) (scheduled w)
  | RefreshSplitParameters =>
      mkWorld (refresh_split_parameters (app w)) (running w) (scheduled w)
  | RefreshSplitLines =>
      mkWorld (refresh_split_lines (app w)) (running w) (scheduled w)
  | DownloadSegmentsZip answer decoded =>
      mkWorld (download_segments_zip answer decoded (app w)).1.1 (running w) (scheduled w)
  end.

(** The state after a list of commands, from the state [__init__] leaves. *)
Definition session (cs : list command) : World :=
  foldl exec (mkWorld init [] []) cs.

End Session.

(** ** Playback transport *)

(** The calls to [pygame.mixer.music] that went through.  The playhead line
    and the time label, which [start_playhead] and [remove_playhead] draw,
    are left out. *)
Inductive mixer_call :=
| music_load (path : string)
| music_play
| music_pause
| music_unpause
| music_stop.

(** Which mixer call of a run of [play_audio] raises, if any: the [k]-th the
    run makes, from 0, with the exception's text.  The calls before it go
    through; a [k] past the last call means that none raises. *)
Inductive mixer_failure :=
| NoFailure
| FailsAt (k : nat) (e : string).

(** The [except] branch of [play_audio]: the error box and the status. *)
Definition playback_error (e : string) (a : App) : App * list effect :=
  (update_status ("Playback error: " +:+ e) error a,
   [showerror "Playback Error" ("Could not play audio:" +:+ String "010" e)]).

(** [play_audio], on the state and the flag [is_paused]: the new state, the
    new flag, the mixer calls that went through and the boxes shown.  The
    flag is cleared after [unpause()] only, so it stays when that call
    raises. *)
Definition play_audio (failure : mixer_failure) (a : App) (is_paused : bool)
  : App * bool * list mixer_call * list effect :=
  if has_audio a then
    if is_paused then
      match failure with
      | FailsAt O e =>
          ((playback_error e a).1, is_paused, [], (playback_error e a).2)
      | _ => (update_status "Resumed playback" info a, false, [music_unpause], [])
      end
    else
      let path := default "" (current_audio_path a) in
      match failure with
      | FailsAt O e =>
          ((playback_error e a).1, is_paused, [], (playback_error e a).2)
      | FailsAt 1 e =>
          ((playback_error e a).1, is_paused, [music_load path], (playback_error e a).2)
      | _ =>
          (update_status "Started playback" success a, is_paused,
           [music_load path; music_play], [])
      end
  else (a, is_paused, [], []).

(** [pause_audio]; [busy] is what [pygame.mixer.music.get_busy()] answers.
    This handler and [stop_audio] have no [try]; their single mixer call is
    taken to go through. *)
Definition pause_audio (busy : bool) (a : App) (is_paused : bool)
  : App * bool * list mixer_call :=
  if busy then (update_status "Paused playback" warning a, true, [music_pause])
  else if is_paused then (update_status "Resumed playback" info a, false, [music_unpause])
  else (a, is_paused, []).

(** [stop_audio] *)
Definition stop_audio (a : App) (is_paused : bool) : App * bool * list mixer_call :=
  (update_status "Stopped playback" info a, false, [music_stop]).

(** The transport buttons, and the [Refresh] button under the waveform,
    whose handler [refresh_split_lines] stops the music and clears the
    flag before it resets the points.  [Play] carries the state of the
    application at that moment, which the other handlers may have changed
    in any way in between. *)
Inductive transport_command :=
| Play (failure : mixer_failure) (a : App)
| Pause (busy : bool) (a : App)
| Stop (a : App)
| RefreshLines.

(** The flag [is_paused] and the calls the mixer has accepted so far. *)
Definition transport_exec (st : bool * list mixer_call) (c : transport_command)
  : bool * list mixer_call :=
  match c with
  | Play failure a => let r := play_audio failure a st.1 in (r.1.1.2, st.2 ++ r.1.2)
  | Pause busy a => let r := pause_audio busy a st.1 in (r.1.2, st.2 ++ r.2)
  | Stop a => let r := stop_audio a st.1 in (r.1.2, st.2 ++ r.2)
  | RefreshLines => (false, st.2 ++ [music_stop])
  end.

(** From [__init__]: not paused, nothing sent. *)
Definition transport (cs : list transport_command) : bool * list mixer_call :=
  foldl transport_exec (false, []) cs.

(** ** Vocabulary of the further properties *)


(** What every state of a session satisfies: the duration is not negative,
    the stored points lie in the file, and the panel shows the display of
    some list of segments. *)
Definition well_formed (a : App) : Prop :=
  0 ≤ audio_duration_ms a ∧
  Forall (λ p, 0 ≤ p ≤ audio_duration_ms a) (split_points a) ∧
  ∃ segs, timestamp_tree a = display <$> segs.

(** ** Sample values *)

Example ms_to_mmss_samples :
  ms_to_mmss 0 = "00:00" ∧ ms_to_mmss 61999 = "01:01" ∧
  ms_to_mmss 6000000 = "100:00" ∧ ms_to_mmss (-1) = "-1:59".
Proof. repeat split; reflexivity. Qed.

Example int_samples :
  Text.int " 5 " = Some 5 ∧ Text.int "-5" = Some (-5) ∧ Text.int "+5" = Some 5 ∧
  Text.int "1_0" = Some 10 ∧ Text.int "007" = Some 7 ∧ Text.int "" = None ∧
  Text.int "_1" = None ∧ Text.int "1_" = None ∧ Text.int "1__0" = None ∧
  Text.int "- 5" = None ∧ Text.int "5.0" = None ∧ Text.int "+" = None.
Proof. repeat split; reflexivity. Qed.

Example mmss_to_ms_samples :
  mmss_to_ms "01:01" = Some 61000 ∧ mmss_to_ms "90" = Some 90000 ∧
  mmss_to_ms "1:2:3" = Some 0 ∧ mmss_to_ms "a:b" = None ∧
  mmss_to_ms "-5" = Some (-5000) ∧ mmss_to_ms "" = None.
Proof. repeat split; reflexivity. Qed.

(** Points entered at 2000 and 7000 ms on a file of 10000 ms. *)
Example derive_segments_sample :
  derive_segments 10000 [2000; 7000] =
    [Segment 1 0 2000; Segment 2 2000 7000; Segment 3 7000 10000] ∧
  derive_segments 10000 [7000; 12000; 2000; -50; 7000] =
    [Segment 1 0 2000; Segment 2 2000 7000; Segment 3 7000 10000] ∧
  derive_segments 0 [2000] = [].
Proof. vm_compute. done. Qed.

Example timestamps_sample :
  timestamps id [4200; 5800] = [Segment 1 0 4200; Segment 2 4200 10000].
Proof. reflexivity. Qed.

Example refresh_sample :
  refresh_split_parameters
    (add_manual_splits (mkApp "a.mp3" (Some "a.mp3") 10000 [2500] [] ("", info))) =
  mkApp "a.mp3" (Some "a.mp3") 10000 [] [Row 1 "00:00" "00:10"]
    ("Reset all parameters", info) ∧
  download_segments_zip "out.zip" Decoded init =
    (init, [showerror "Error" "No segments to export or no audio loaded."], Returned).
Proof. vm_compute. done. Qed.

(** ** Facts about text *)

Section TextFacts.
Import Text.

Lemma append_nil s : "" +:+ s = s.
Proof. reflexivity. Qed.

Lemma append_cons c s t : String c s +:+ t = String c (s +:+ t).
Proof. reflexivity. Qed.

Lemma all_digits_app s t :
  all_digits (s +:+ t) = all_digits s && all_digits t.
Proof. induction s as [|c s IH]; simpl; [done|]. rewrite IH. by destruct (is_digit c). Qed.

Lemma all_digits_string_of_uint d : all_digits (NilEmpty.string_of_uint d) = true.
Proof. induction d; simpl; auto. Qed.

Lemma to_uint_not_Nil n : N.to_uint n ≠ Decimal.Nil.
Proof.
  destruct n as [|p]; simpl; [discriminate|].
  apply DecimalPos.Unsigned.to_uint_nonnil.
Qed.

Lemma decimal_unfold n : decimal n = NilEmpty.string_of_uint (N.to_uint n).
Proof.
  unfold decimal, NilZero.string_of_uint.
  pose proof (to_uint_not_Nil n). by destruct (N.to_uint n).
Qed.

Lemma all_digits_decimal n : all_digits (decimal n) = true.
Proof. rewrite decimal_unfold. apply all_digits_string_of_uint. Qed.

Lemma decimal_not_empty n : decimal n ≠ "".
Proof.
  rewrite decimal_unfold. pose proof (to_uint_not_Nil n).
  by destruct (N.to_uint n).
Qed.

Lemma all_digits_zeros k : all_digits (zeros k) = true.
Proof. induction k; simpl; auto. Qed.

Lemma all_digits_zfill w ds : all_digits ds = true → all_digits (zfill w ds) = true.
Proof. intros H. unfold zfill. by rewrite all_digits_app, all_digits_zeros, H. Qed.

Lemma zfill_not_empty w ds : ds ≠ "" → zfill w ds ≠ "".
Proof. unfold zfill. destruct (zeros _); simpl; [done|discriminate]. Qed.

(** A digit is neither white space, nor a sign, nor a separator. *)
Lemma is_digit_plain c :
  is_digit c = true →
  int_space c = false ∧ c ≠ "-"%char ∧ c ≠ "+"%char ∧ c ≠ "_"%char ∧ c ≠ ":"%char.
Proof.
  destruct c as [[] [] [] [] [] [] [] []]; simpl; intros; try discriminate;
    repeat split; (reflexivity || discriminate).
Qed.

Lemma lstrip_digits s : all_digits s = true → lstrip int_space s = s.
Proof.
  destruct s as [|c s]; simpl; [done|].
  intros [Hc _]%andb_prop. by destruct (is_digit_plain c Hc) as [-> _].
Qed.

Lemma rstrip_digits s : all_digits s = true → rstrip int_space s = s.
Proof.
  induction s as [|c s IH]; simpl; [done|].
  intros [Hc Hs]%andb_prop. rewrite (IH Hs).
  destruct (is_digit_plain c Hc) as [-> _]. by destruct s.
Qed.

Lemma digit_groups_digits b s :
  all_digits s = true → s ≠ "" ∨ b = true → digit_groups b s = Some s.
Proof.
  revert b. induction s as [|c s IH]; simpl; intros b Hs Hb.
  - destruct Hb as [? | ->]; done.
  - apply andb_prop in Hs as [Hc Hs]. rewrite Hc, (IH true Hs); auto.
Qed.

(** Reading back a digit string: what the digits denote, leading zeros
    ignored. *)
Lemma int_digits s u :
  all_digits s = true → s ≠ "" → NilEmpty.uint_of_string s = Some u →
  int s = Some (Z.of_N (N.of_uint u)).
Proof.
  intros Hs Hne Hu. unfold int.
  rewrite (lstrip_digits s Hs), (rstrip_digits s Hs).
  destruct s as [|c r]; [done|].
  pose proof Hs as [Hc _]%andb_prop.
  destruct (is_digit_plain c Hc) as (_ & Hm & Hp & _).
  assert (match String c r with
          | String "-" r0 => (true, r0)
          | String "+" r0 => (false, r0)
          | _ => (false, String c r)
          end = (false, String c r)) as ->.
  { destruct c as [[] [] [] [] [] [] [] []]; done. }
  rewrite (digit_groups_digits false _ Hs) by auto.
  simpl. simpl in Hu. by rewrite Hu.
Qed.

Lemma uint_of_string_zeros k s u :
  NilEmpty.uint_of_string s = Some u →
  ∃ u', NilEmpty.uint_of_string (zeros k +:+ s) = Some u' ∧ N.of_uint u' = N.of_uint u.
Proof.
  intros Hu. induction k as [|k (u' & Hu' & Heq)]; simpl; [eauto|].
  rewrite Hu'. simpl. exists (Decimal.D0 u'). split; [done|]. by rewrite <- Heq.
Qed.

(** [int] undoes the zero-padded decimal rendering of a natural number. *)
Lemma int_zfill_decimal w n : int (zfill w (decimal n)) = Some (Z.of_N n).
Proof.
  destruct (uint_of_string_zeros (w - String.length (decimal n))
              (decimal n) (N.to_uint n)) as (u' & Hu' & Heq).
  { rewrite decimal_unfold. apply NilEmpty.usu. }
  rewrite (int_digits _ u'); [|apply all_digits_zfill, all_digits_decimal
                              |apply zfill_not_empty, decimal_not_empty|exact Hu'].
  by rewrite Heq, DecimalN.Unsigned.of_to.
Qed.

Lemma format_02d_nonneg z : 0 ≤ z → format_02d z = zfill 2 (decimal (Z.to_N z)).
Proof. intros. unfold format_02d. case_decide; [lia|done]. Qed.

Lemma int_format_02d z : 0 ≤ z → int (format_02d z) = Some z.
Proof.
  intros Hz. rewrite format_02d_nonneg by done.
  rewrite int_zfill_decimal. f_equal. lia.
Qed.

Lemma all_digits_format_02d z : 0 ≤ z → all_digits (format_02d z) = true.
Proof.
  intros. rewrite format_02d_nonneg by done.
  apply all_digits_zfill, all_digits_decimal.
Qed.

(** [split] on a text without the separator, and on two such texts joined
    by one separator. *)
Lemma split_digits s : all_digits s = true → split ":" s = [s].
Proof.
  induction s as [|c s IH]; simpl; [done|].
  intros [Hc Hs]%andb_prop. destruct (is_digit_plain c Hc) as (_ & _ & _ & _ & Hcolon).
  case_decide; [done|]. by rewrite (IH Hs).
Qed.

Lemma split_digits_colon s t :
  all_digits s = true → all_digits t = true →
  split ":" (s +:+ ":" +:+ t) = [s; t].
Proof.
  intros Hs Ht. induction s as [|c s IH]; simpl.
  - by rewrite append_nil, (split_digits t Ht).
  - apply andb_prop in Hs as [Hc Hs].
    destruct (is_digit_plain c Hc) as (_ & _ & _ & _ & Hcolon).
    case_decide; [done|]. by rewrite (IH Hs).
Qed.

(** [split] returns one part more than there are separators. *)
Lemma length_split sep s : length (split sep s) = S (count sep s).
Proof.
  induction s as [|c s IH]; simpl; [done|].
  case_decide; simpl; [by rewrite IH|].
  destruct (split sep s); simpl in *; [done|lia].
Qed.

Lemma contains_count sep s : contains sep s = true ↔ (0 < count sep s)%nat.
Proof.
  induction s as [|c s IH]; simpl; [split; [done|lia]|].
  case_decide; [split; [lia|done]|done].
Qed.

End TextFacts.

(** ** Time codec: the round trip *)

Lemma mmss_to_ms_ms_to_mmss ms :
  0 ≤ ms → mmss_to_ms (ms_to_mmss ms) = Some (ms / 1000 * 1000).
Proof.
  intros Hms. unfold mmss_to_ms, ms_to_mmss.
  assert (0 ≤ ms / 1000 / 60) as Hm by (apply Z.div_pos; [apply Z.div_pos|]; lia).
  assert (0 ≤ (ms / 1000) mod 60) as Hs by (apply Z.mod_pos_bound; lia).
  rewrite split_digits_colon by by apply all_digits_format_02d.
  unfold mins_secs_to_ms. rewrite !int_format_02d by done. simpl.
  f_equal. pose proof (Z.div_mod (ms / 1000) 60). lia.
Qed.

(** ** The boundary list and the derived segments *)

Lemma elem_of_sorted_set l x : x ∈ sorted_set l ↔ x ∈ l.
Proof.
  unfold sorted_set. rewrite merge_sort_Permutation, elem_of_elements.
  apply elem_of_list_to_set.
Qed.

Lemma sorted_set_sorted l : StronglySorted Z.le (sorted_set l).
Proof. apply (StronglySorted_merge_sort _). Qed.

Lemma sorted_set_NoDup l : NoDup (sorted_set l).
Proof. unfold sorted_set. rewrite merge_sort_Permutation. apply NoDup_elements. Qed.

(** [sorted(set(l))] depends on the elements of [l] only. *)
Lemma sorted_set_ext l1 l2 : (∀ x, x ∈ l1 ↔ x ∈ l2) → sorted_set l1 = sorted_set l2.
Proof.
  intros H. unfold sorted_set.
  assert ((list_to_set l1 : gset Z) = list_to_set l2) as ->; [|done].
  apply set_eq. intros x. by rewrite !elem_of_list_to_set.
Qed.

Lemma elem_of_boundary_points d ps x :
  x ∈ boundary_points d ps ↔
  0 ≤ x ≤ d ∧ (x = 0 ∨ x ∈ ps ∨ (d ≠ 0 ∧ x = d)).
Proof.
  unfold boundary_points. rewrite list_elem_of_filter, elem_of_sorted_set.
  rewrite !elem_of_app, list_elem_of_singleton.
  case_decide; [rewrite elem_of_nil|rewrite list_elem_of_singleton];
    intuition (subst; auto with lia).
Qed.

Lemma StronglySorted_filter {A} (R : relation A) (P : A → Prop)
    `{∀ x, Decision (P x)} (l : list A) :
  StronglySorted R l → StronglySorted R (filter P l).
Proof.
  induction 1 as [|x l Hl IH Hall]; [constructor|].
  rewrite filter_cons. case_decide; [|done].
  constructor; [done|]. rewrite Forall_forall in Hall |- *.
  intros y [_ Hy]%list_elem_of_filter. auto.
Qed.

Lemma boundary_points_sorted d ps : StronglySorted Z.le (boundary_points d ps).
Proof. apply (StronglySorted_filter _ _), sorted_set_sorted. Qed.

Lemma boundary_points_NoDup d ps : NoDup (boundary_points d ps).
Proof. apply NoDup_filter, sorted_set_NoDup. Qed.

(** The least boundary is 0 whenever a duration is known. *)
Lemma boundary_points_head d ps : 0 ≤ d → head (boundary_points d ps) = Some 0.
Proof.
  intros Hd.
  assert (0 ∈ boundary_points d ps) as H0 by (apply elem_of_boundary_points; lia).
  pose proof (boundary_points_sorted d ps) as Hsorted.
  assert (∀ x, x ∈ boundary_points d ps → 0 ≤ x) as Hlow
      by (intros x Hx%elem_of_boundary_points; lia).
  destruct (boundary_points d ps) as [|x l]; [by apply elem_of_nil in H0|].
  simpl. f_equal.
  apply StronglySorted_inv in Hsorted as [_ Hall].
  assert (0 ≤ x) by (apply Hlow; left).
  apply elem_of_cons in H0 as [->|H0]; [done|].
  rewrite Forall_forall in Hall. specialize (Hall 0 H0). lia.
Qed.

(** The greatest boundary is the duration. *)
Lemma boundary_points_last d ps : 0 < d → last (boundary_points d ps) = Some d.
Proof.
  intros Hd.
  assert (d ∈ boundary_points d ps) as Hin by (apply elem_of_boundary_points; lia).
  pose proof (boundary_points_sorted d ps) as Hsorted.
  assert (∀ x, x ∈ boundary_points d ps → x ≤ d) as Hup
      by (intros x Hx%elem_of_boundary_points; lia).
  destruct (boundary_points d ps) as [|x l _] using rev_ind;
    [by apply elem_of_nil in Hin|].
  rewrite last_snoc. f_equal.
  assert (x ≤ d) by (apply Hup, elem_of_app; right; left).
  apply elem_of_app in Hin as [Hin|Hin%list_elem_of_singleton]; [|done].
  pose proof (StronglySorted_app_1_elem_of _ _ _ _ _ Hsorted Hin
                ltac:(left) : d ≤ x). lia.
Qed.

Lemma boundary_points_length d ps : 0 < d → (2 ≤ length (boundary_points d ps))%nat.
Proof.
  intros Hd.
  pose proof (boundary_points_head d ps ltac:(lia)) as Hh.
  pose proof (boundary_points_last d ps Hd) as Hl.
  destruct (boundary_points d ps) as [|x [|y l]]; simpl in *; [done| |lia].
  simplify_eq. lia.
Qed.

Lemma length_consecutive l : length (consecutive l) = (length l - 1)%nat.
Proof. unfold consecutive. by rewrite length_fmap, length_seq. Qed.

Lemma consecutive_lookup l i :
  (S i < length l)%nat →
  consecutive l !! i = Some (Segment (Z.of_nat i + 1) (l !!! i) (l !!! S i)).
Proof.
  intros Hi. unfold consecutive.
  rewrite list_lookup_fmap, lookup_seq_lt by lia. done.
Qed.

Lemma consecutive_lookup_Some l i s :
  consecutive l !! i = Some s →
  (S i < length l)%nat ∧ s = Segment (Z.of_nat i + 1) (l !!! i) (l !!! S i).
Proof.
  intros Hs. pose proof (lookup_lt_Some _ _ _ Hs) as Hlt.
  rewrite length_consecutive in Hlt.
  rewrite consecutive_lookup in Hs by lia. split; [lia|congruence].
Qed.

(** Neighbours in a strictly sorted list are strictly ordered. *)
Lemma sorted_lookup_lt (l : list Z) i :
  StronglySorted Z.le l → NoDup l → (S i < length l)%nat → l !!! i < l !!! S i.
Proof.
  intros Hs Hn Hi.
  destruct (lookup_lt_is_Some_2 l i ltac:(lia)) as [x Hx].
  destruct (lookup_lt_is_Some_2 l (S i) Hi) as [y Hy].
  rewrite (list_lookup_total_correct _ _ _ Hx), (list_lookup_total_correct _ _ _ Hy).
  assert (x ≠ y) by (intros ->; pose proof (NoDup_lookup _ _ _ _ Hn Hx Hy); lia).
  rewrite <- (take_drop_middle _ _ _ Hx) in Hs.
  apply StronglySorted_app_1_r, StronglySorted_inv in Hs as [_ Hall].
  rewrite Forall_forall in Hall.
  assert (y ∈ drop (S i) l) as Hin.
  { apply list_elem_of_lookup. exists O. by rewrite lookup_drop, Nat.add_0_r. }
  specialize (Hall y Hin). lia.
Qed.

(** ** Time stamps of the chunks *)

Section TimestampFacts.
Context {AudioSegment : Type} (len : AudioSegment → Z).

Lemma total_len_snoc chunks c :
  total_len len (chunks ++ [c]) = total_len len chunks + len c.
Proof. unfold total_len. induction chunks as [|x l IH]; simpl; lia. Qed.

(** The loop after one more chunk. *)
Lemma timestamps_loop_snoc chunks c :
  foldl (timestamps_step len) ([], 0) (imap pair (chunks ++ [c])) =
  timestamps_step len (foldl (timestamps_step len) ([], 0) (imap pair chunks))
    (length chunks, c).
Proof. rewrite imap_app, foldl_app. simpl. by rewrite Nat.add_0_r. Qed.

(** [current_pos] after the loop is the total length seen. *)
Lemma timestamps_loop chunks :
  foldl (timestamps_step len) ([], 0) (imap pair chunks) =
  (timestamps len chunks, total_len len chunks).
Proof.
  unfold timestamps. induction chunks as [|c chunks IH] using rev_ind; [done|].
  rewrite timestamps_loop_snoc, IH, total_len_snoc. done.
Qed.

Lemma timestamps_snoc chunks c :
  timestamps len (chunks ++ [c]) =
  timestamps len chunks ++
    [Segment (Z.of_nat (length chunks) + 1) (total_len len chunks)
       (total_len len chunks + len c)].
Proof.
  unfold timestamps at 1. by rewrite timestamps_loop_snoc, timestamps_loop.
Qed.

Lemma length_timestamps chunks : length (timestamps len chunks) = length chunks.
Proof.
  induction chunks as [|c chunks IH] using rev_ind; [done|].
  rewrite timestamps_snoc, !length_app, IH. done.
Qed.

Lemma timestamps_lookup chunks i c :
  chunks !! i = Some c →
  timestamps len chunks !! i =
    Some (Segment (Z.of_nat i + 1) (total_len len (take i chunks))
            (total_len len (take i chunks) + len c)).
Proof.
  revert i c. induction chunks as [|x chunks IH] using rev_ind; intros i c Hi; [done|].
  rewrite timestamps_snoc.
  destruct (decide (i < length chunks)%nat) as [Hlt|Hge].
  - rewrite lookup_app_l in Hi by done.
    rewrite lookup_app_l by (by rewrite length_timestamps).
    rewrite take_app_le by lia. by apply IH.
  - pose proof (lookup_lt_Some _ _ _ Hi) as Hlen. rewrite length_app in Hlen.
    simpl in Hlen. assert (i = length chunks) as -> by lia.
    rewrite list_lookup_middle in Hi by done. simplify_eq.
    rewrite list_lookup_middle by (by rewrite length_timestamps).
    by rewrite take_app_length.
Qed.

End TimestampFacts.

(** ** The claims *)

(** C1.  With a file of positive duration loaded, whatever split points are
    stored, [update_manual_split_segments] fills the panel with the display
    of a non-empty segment list that is contiguous and exhaustive: the first
    segment starts at 0, the last one ends at the duration, and every
    segment ends where the next one starts. *)
Theorem derive_segments_contiguous_exhaustive (a : App) :
  0 < audio_duration_ms a →
  let segs := derive_segments (audio_duration_ms a) (split_points a) in
  timestamp_tree (update_manual_split_segments a) = display <$> segs ∧
  start_ms <$> head segs = Some 0 ∧
  end_ms <$> last segs = Some (audio_duration_ms a) ∧
  ∀ i s t, segs !! i = Some s → segs !! S i = Some t → end_ms s = start_ms t.
Proof.
  intros Hd segs. subst segs. unfold derive_segments.
  set (l := boundary_points (audio_duration_ms a) (split_points a)).
  pose proof (boundary_points_length _ (split_points a) Hd) as Hlen. fold l in Hlen.
  split; [done|]. split; [|split].
  - rewrite head_lookup, consecutive_lookup by lia. simpl. f_equal.
    assert (0 ≤ audio_duration_ms a) as Hd0 by lia.
    pose proof (boundary_points_head _ (split_points a) Hd0) as Hh.
    fold l in Hh. rewrite head_lookup in Hh.
    by apply list_lookup_total_correct.
  - rewrite last_lookup, length_consecutive, consecutive_lookup by lia. simpl. f_equal.
    pose proof (boundary_points_last _ (split_points a) Hd) as Hl.
    fold l in Hl. rewrite last_lookup in Hl.
    apply list_lookup_total_correct. rewrite <- Hl. f_equal. lia.
  - intros i s t [_ ->]%consecutive_lookup_Some [_ ->]%consecutive_lookup_Some. done.
Qed.

Lemma derive_segments_contiguous_exhaustive_witness :
  let a := mkApp "a.mp3" (Some "a.mp3") 10000 [7000; 2000; 7000] [] ("", info) in
  let segs := derive_segments 10000 [7000; 2000; 7000] in
  timestamp_tree (update_manual_split_segments a) = display <$> segs ∧
  start_ms <$> head segs = Some 0 ∧
  end_ms <$> last segs = Some 10000 ∧
  ∀ i s t, segs !! i = Some s → segs !! S i = Some t → end_ms s = start_ms t.
Proof.
  exact (derive_segments_contiguous_exhaustive
           (mkApp "a.mp3" (Some "a.mp3") 10000 [7000; 2000; 7000] [] ("", info))
           ltac:(simpl; lia)).
Defined.

(** C2.  For every non-negative [ms], reading back the text that
    [ms_to_mmss] prints gives [ms] rounded down to a whole second:
    [mmss_to_ms(ms_to_mmss(ms)) == (ms // 1000) * 1000]. *)
Theorem mmss_round_trip (ms : Z) :
  0 ≤ ms → mmss_to_ms (ms_to_mmss ms) = Some (ms / 1000 * 1000).
Proof. apply mmss_to_ms_ms_to_mmss. Qed.

Lemma mmss_round_trip_witness :
  mmss_to_ms (ms_to_mmss 61999) = Some (61999 / 1000 * 1000).
Proof. apply (mmss_round_trip 61999). lia. Defined.

(** C5.  The time stamps both split tasks report for the chunks of the
    silence engine: chunk [i] (counted from 0) gets the track number [i+1],
    starts at the sum of the lengths of the chunks before it (0 for the
    first) and ends at its start plus its own length; there are as many
    time stamps as chunks, and each ends where the next starts. *)
Theorem timestamps_accumulate {AudioSegment : Type} (len : AudioSegment → Z)
    (chunks : list AudioSegment) (i : nat) (c : AudioSegment) :
  chunks !! i = Some c →
  length (timestamps len chunks) = length chunks ∧
  timestamps len chunks !! i =
    Some (Segment (Z.of_nat i + 1) (total_len len (take i chunks))
            (total_len len (take i chunks) + len c)) ∧
  (i = O → start_ms <$> timestamps len chunks !! i = Some 0) ∧
  (∀ t, timestamps len chunks !! S i = Some t →
        end_ms <$> timestamps len chunks !! i = Some (start_ms t)).
Proof.
  intros Hi. pose proof (timestamps_lookup len chunks i c Hi) as Hts.
  split; [apply length_timestamps|]. split; [done|]. split.
  - intros ->. by rewrite Hts.
  - intros t Ht. rewrite Hts. simpl. f_equal.
    pose proof (lookup_lt_Some _ _ _ Ht) as Hlt. rewrite length_timestamps in Hlt.
    destruct (lookup_lt_is_Some_2 chunks (S i) Hlt) as [c' Hc'].
    rewrite (timestamps_lookup len chunks (S i) c' Hc') in Ht. simplify_eq. simpl.
    rewrite (take_S_r _ _ _ Hi), total_len_snoc. done.
Qed.

Lemma timestamps_accumulate_witness :
  length (timestamps id [4200; 5800; 1000]) = 3%nat ∧
  timestamps id [4200; 5800; 1000] !! O =
    Some (Segment 1 (total_len id (take 0 [4200; 5800; 1000]))
            (total_len id (take 0 [4200; 5800; 1000]) + id 4200)) ∧
  (O = O → start_ms <$> timestamps id [4200; 5800; 1000] !! O = Some 0) ∧
  (∀ t, timestamps id [4200; 5800; 1000] !! 1%nat = Some t →
        end_ms <$> timestamps id [4200; 5800; 1000] !! O = Some (start_ms t)).
Proof.
  exact (timestamps_accumulate id [4200; 5800; 1000] 0 4200 eq_refl).
Defined.

(** ** Adding a point *)

Lemma boundary_points_ext d l1 l2 :
  (∀ x, x ∈ l1 ↔ x ∈ l2) → boundary_points d l1 = boundary_points d l2.
Proof.
  intros H. unfold boundary_points. f_equal. apply sorted_set_ext.
  intros x. rewrite !elem_of_app. by rewrite H.
Qed.

Lemma boundary_points_twice d ps p :
  boundary_points d ((ps ++ [p]) ++ [p]) = boundary_points d (ps ++ [p]).
Proof.
  apply boundary_points_ext. intros x.
  rewrite !elem_of_app, list_elem_of_singleton. tauto.
Qed.

Lemma on_waveform_click_twice ev a :
  audio_duration_ms (on_waveform_click ev a) = audio_duration_ms a ∧
  timestamp_tree (on_waveform_click ev (on_waveform_click ev a)) =
    timestamp_tree (on_waveform_click ev a) ∧
  derive_segments (audio_duration_ms a)
      (split_points (on_waveform_click ev (on_waveform_click ev a))) =
    derive_segments (audio_duration_ms a) (split_points (on_waveform_click ev a)).
Proof.
  unfold on_waveform_click.
  destruct (negb (inaxes ev) || bool_decide (audio_duration_ms a = 0)) eqn:Hguard.
  { by rewrite Hguard. }
  simpl. rewrite Hguard. simpl.
  unfold derive_segments. by rewrite boundary_points_twice.
Qed.

Lemma add_manual_split_from_entry_twice entry a :
  add_manual_split_from_entry entry (add_manual_split_from_entry entry a) =
  add_manual_split_from_entry entry a.
Proof.
  unfold add_manual_split_from_entry.
  generalize (parse_entry (Text.strip entry)). intros parsed.
  destruct (decide (audio_duration_ms a = 0)) as [Hd|Hd]; simpl.
  { by rewrite decide_True. }
  destruct parsed as [ms0|]; simpl.
  2:{ by rewrite decide_False. }
  set (ms := clamp (audio_duration_ms a) ms0).
  destruct (decide (ms ∈ split_points a)) as [Hin|Hin]; simpl.
  - rewrite decide_False by done. by rewrite decide_True.
  - rewrite decide_False by done. rewrite decide_True; [done|].
    apply elem_of_app. right. by left.
Qed.

(** C8.  Adding a point is idempotent on the derived segments.  A second
    click at the same place appends the point a second time, yet the
    segments derived from the stored points, and the rows in the panel, are
    those after the first click; a second entry of the same text changes
    nothing at all, the point being stored once. *)
Theorem add_point_idempotent (a : App) (ev : click) (entry : string) :
  derive_segments (audio_duration_ms a)
      (split_points (on_waveform_click ev (on_waveform_click ev a))) =
    derive_segments (audio_duration_ms a) (split_points (on_waveform_click ev a)) ∧
  timestamp_tree (on_waveform_click ev (on_waveform_click ev a)) =
    timestamp_tree (on_waveform_click ev a) ∧
  add_manual_split_from_entry entry (add_manual_split_from_entry entry a) =
    add_manual_split_from_entry entry a.
Proof.
  destruct (on_waveform_click_twice ev a) as (_ & Htree & Hsegs).
  split; [done|]. split; [done|]. apply add_manual_split_from_entry_twice.
Qed.

(** The stored list does keep both copies of a point clicked twice. *)
Example click_twice_stores_duplicate :
  let a := mkApp "a.mp3" (Some "a.mp3") 10000 [] [] ("", info) in
  let ev := Click true 2500 in
  split_points (on_waveform_click ev (on_waveform_click ev a)) = [2500; 2500] ∧
  timestamp_tree (on_waveform_click ev (on_waveform_click ev a)) =
    [Row 1 "00:00" "00:02"; Row 2 "00:02" "00:10"].
Proof. vm_compute. done. Qed.

(** ** Export *)

(** The bounds of every derived segment lie in the file. *)
Lemma derive_segments_bounds d ps s :
  s ∈ derive_segments d ps → 0 ≤ start_ms s ≤ d ∧ 0 ≤ end_ms s ≤ d.
Proof.
  intros (i & Hi)%list_elem_of_lookup. unfold derive_segments in Hi.
  apply consecutive_lookup_Some in Hi as [Hlt ->]. simpl.
  split; eapply (proj1 (elem_of_boundary_points d ps _));
    apply list_elem_of_lookup_total_2; lia.
Qed.

(** The export loop on rows that display non-negative times. *)
Lemma export_loop_display segs :
  Forall (λ s, 0 ≤ start_ms s ∧ 0 ≤ end_ms s) segs →
  export_loop (display <$> segs) =
    (export_of <$> segs, (track_name ∘ ordinal) <$> segs, Returned).
Proof.
  induction 1 as [|s segs [Hs He] _ IH]; [done|].
  rewrite fmap_cons. cbn [export_loop display start_text end_text track].
  rewrite !mmss_to_ms_ms_to_mmss by done. by rewrite IH.
Qed.

Lemma slices_app e1 e2 : slices (e1 ++ e2) = slices e1 ++ slices e2.
Proof. apply omap_app. Qed.

Lemma slices_export_of segs :
  slices (export_of <$> segs) =
  (λ s, (start_ms s / 1000 * 1000, end_ms s / 1000 * 1000)) <$> segs.
Proof. induction segs as [|s segs IH]; [done|]. simpl. f_equal. apply IH. Qed.

Lemma slices_zip_write names : slices (zip_write <$> names) = [].
Proof. by induction names. Qed.

(** Every derived segment has a positive length. *)
Lemma derive_segments_increasing d ps s :
  s ∈ derive_segments d ps → start_ms s < end_ms s.
Proof.
  intros (i & Hi)%list_elem_of_lookup. unfold derive_segments in Hi.
  apply consecutive_lookup_Some in Hi as [Hlt ->]. simpl.
  apply sorted_lookup_lt;
    [apply boundary_points_sorted|apply boundary_points_NoDup|done].
Qed.

(** Whatever text it reads, [mmss_to_ms] returns whole seconds. *)
Lemma mmss_to_ms_whole_seconds mmss ms : mmss_to_ms mmss = Some ms → ms mod 1000 = 0.
Proof.
  assert (∀ m s, mins_secs_to_ms m s = Some ms → ms mod 1000 = 0) as H.
  { intros m s. unfold mins_secs_to_ms.
    destruct (Text.int m) as [x|]; simpl; [|done].
    destruct (Text.int s) as [y|]; simpl; [|done].
    intros [= <-]. apply Z.mod_mul. lia. }
  unfold mmss_to_ms. destruct (Text.split ":" mmss) as [|x [|y [|z rest]]]; apply H.
Qed.

Lemma export_loop_whole_seconds rows se :
  se ∈ slices (export_loop rows).1.1 → se.1 mod 1000 = 0 ∧ se.2 mod 1000 = 0.
Proof.
  induction rows as [|r rows IH]; simpl; [by intros ?%elem_of_nil|].
  destruct (mmss_to_ms (start_text r)) as [x|] eqn:Hx; [|by intros ?%elem_of_nil].
  destruct (mmss_to_ms (end_text r)) as [y|] eqn:Hy; [|by intros ?%elem_of_nil].
  destruct (export_loop rows) as [[effs paths] o]. simpl in *.
  intros [->|Hin]%elem_of_cons; [|by apply IH].
  simpl. eauto using mmss_to_ms_whole_seconds.
Qed.

Lemma slices_download_whole_seconds answer decoded a se :
  se ∈ slices (download_segments_zip answer decoded a).1.2 →
  se.1 mod 1000 = 0 ∧ se.2 mod 1000 = 0.
Proof.
  unfold download_segments_zip.
  destruct (bool_decide _ || negb _); [by intros ?%elem_of_nil|].
  case_decide; [by intros ?%elem_of_nil|].
  destruct decoded as [|e]; [|by intros ?%elem_of_nil].
  pose proof (export_loop_whole_seconds (timestamp_tree a) se) as Hloop.
  destruct (export_loop (timestamp_tree a)) as [[effs paths] o]. simpl in Hloop.
  destruct o; cbn [fst snd]; rewrite ?slices_app, ?slices_zip_write; simpl;
    rewrite ?app_nil_r; exact Hloop.
Qed.

(** Every boundary in range starts or ends a derived segment. *)
Lemma boundary_point_in_segments d ps p :
  0 < d → p ∈ ps → 0 ≤ p ≤ d →
  ∃ s, s ∈ derive_segments d ps ∧ (start_ms s = p ∨ end_ms s = p).
Proof.
  intros Hd Hp Hrange.
  assert (p ∈ boundary_points d ps) as Hin by (apply elem_of_boundary_points; auto).
  pose proof (boundary_points_length d ps Hd) as Hlen.
  apply list_elem_of_lookup in Hin as [i Hi].
  pose proof (lookup_lt_Some _ _ _ Hi) as Hlt.
  unfold derive_segments.
  destruct (decide (S i < length (boundary_points d ps))%nat) as [Hnext|Hlast].
  - eexists. split.
    + eapply list_elem_of_lookup_2, consecutive_lookup, Hnext.
    + left. simpl. by apply list_lookup_total_correct.
  - destruct i as [|j]; [lia|]. eexists. split.
    + eapply list_elem_of_lookup_2, (consecutive_lookup _ j). lia.
    + right. simpl. by apply list_lookup_total_correct.
Qed.

(** C9.  Export cuts at whole seconds whatever the precision of the stored
    split points.  With a file loaded, the panel filled from the split
    points, a ZIP name chosen and the file decoded, [download_segments_zip]
    returns normally and slices the audio, for each derived segment [(start, end)], at
    [((start // 1000) * 1000, (end // 1000) * 1000)]: the bounds are read
    back from the displayed [mm:ss] texts.  So a stored point [p] of the
    file is cut at [(p // 1000) * 1000]; and whatever the panel holds, every
    slice bound of an export is a multiple of 1000. *)
Theorem export_cuts_at_whole_seconds (a : App) (answer : string) :
  0 < audio_duration_ms a → has_audio a = true → answer ≠ "" →
  let segs := derive_segments (audio_duration_ms a) (split_points a) in
  ∃ a' effs,
    download_segments_zip answer Decoded (update_manual_split_segments a)
      = (a', effs, Returned) ∧
    slices effs = (λ s, (start_ms s / 1000 * 1000, end_ms s / 1000 * 1000)) <$> segs ∧
    (∀ p, p ∈ split_points a → 0 ≤ p ≤ audio_duration_ms a →
          ∃ se, se ∈ slices effs ∧ (se.1 = p / 1000 * 1000 ∨ se.2 = p / 1000 * 1000)) ∧
    (∀ b answer' decoded se,
          se ∈ slices (download_segments_zip answer' decoded b).1.2 →
          se.1 mod 1000 = 0 ∧ se.2 mod 1000 = 0).
Proof.
  intros Hd Haudio Hanswer segs.
  assert (Forall (λ s, 0 ≤ start_ms s ∧ 0 ≤ end_ms s) segs) as Hpos.
  { apply Forall_forall. intros s Hs%derive_segments_bounds. lia. }
  assert (segs ≠ []) as Hne.
  { intros Hnil. apply (f_equal length) in Hnil. subst segs.
    unfold derive_segments in Hnil. rewrite length_consecutive in Hnil.
    pose proof (boundary_points_length _ (split_points a) Hd). simpl in Hnil. lia. }
  unfold download_segments_zip, update_manual_split_segments.
  cbn [timestamp_tree set_timestamp_tree]. fold segs.
  assert (has_audio (set_timestamp_tree (display <$> segs) a) = true) as -> by done.
  rewrite bool_decide_eq_false_2 by (destruct segs; done).
  cbn [orb negb]. rewrite decide_False by done.
  rewrite (export_loop_display segs Hpos).
  eexists _, _. split; [reflexivity|].
  assert (∀ l, slices ([asksaveasfilename; from_mp3 l; mkdtemp] ++ (export_of <$> segs)
             ++ [zip_open answer] ++ (zip_write <$> ((track_name ∘ ordinal) <$> segs))
             ++ [rmtree; showinfo "Success"
                   ("Exported " +:+ Text.decimal (N.of_nat (length ((track_name ∘ ordinal) <$> segs)))
                      +:+ " segments to ZIP:" +:+ String "010" answer)])
           = (λ s, (start_ms s / 1000 * 1000, end_ms s / 1000 * 1000)) <$> segs) as Hslices.
  { intros l. rewrite !slices_app, slices_export_of, slices_zip_write. simpl.
    by rewrite app_nil_r. }
  rewrite <- !app_assoc. rewrite Hslices.
  split; [done|]. split.
  - intros p Hp Hrange.
    destruct (boundary_point_in_segments _ _ p Hd Hp Hrange) as (s & Hs & Hsp).
    exists (start_ms s / 1000 * 1000, end_ms s / 1000 * 1000). split.
    + apply list_elem_of_fmap. eauto.
    + simpl. destruct Hsp as [<-| <-]; auto.
  - intros b answer' decoded se. apply slices_download_whole_seconds.
Qed.

Lemma export_cuts_at_whole_seconds_witness :
  let a := mkApp "a.mp3" (Some "a.mp3") 10000 [2500; 7999] [] ("", info) in
  let segs := derive_segments 10000 [2500; 7999] in
  ∃ a' effs,
    download_segments_zip "out.zip" Decoded (update_manual_split_segments a)
      = (a', effs, Returned) ∧
    slices effs = (λ s, (start_ms s / 1000 * 1000, end_ms s / 1000 * 1000)) <$> segs ∧
    (∀ p, p ∈ [2500; 7999] → 0 ≤ p ≤ 10000 →
          ∃ se, se ∈ slices effs ∧ (se.1 = p / 1000 * 1000 ∨ se.2 = p / 1000 * 1000)) ∧
    (∀ b answer' decoded se,
          se ∈ slices (download_segments_zip answer' decoded b).1.2 →
          se.1 mod 1000 = 0 ∧ se.2 mod 1000 = 0).
Proof.
  exact (export_cuts_at_whole_seconds
           (mkApp "a.mp3" (Some "a.mp3") 10000 [2500; 7999] [] ("", info)) "out.zip"
           ltac:(simpl; lia) eq_refl ltac:(discriminate)).
Defined.

(** The slices of that export: the points 2500 and 7999 are cut at 2000 and
    7000. *)
Example export_slices_sample :
  let a := mkApp "a.mp3" (Some "a.mp3") 10000 [2500; 7999] [] ("", info) in
  slices (download_segments_zip "out.zip" Decoded (update_manual_split_segments a)).1.2 =
    [(0, 2000); (2000, 7000); (7000, 10000)].
Proof. vm_compute. done. Qed.

(** C7.  Export with nothing in the segment panel reports the error in a
    message box and returns: the save dialog is not shown, no file or
    directory is created, and the state is as before. *)
Theorem export_without_segments (a : App) (answer : string) (decoded : decode_result) :
  timestamp_tree a = [] →
  ∃ effs,
    download_segments_zip answer decoded a = (a, effs, Returned) ∧
    effs = [showerror "Error" "No segments to export or no audio loaded."] ∧
    (asksaveasfilename ∉ effs) ∧
    Forall (λ e, writes e = false) effs.
Proof.
  intros Htree. unfold download_segments_zip. rewrite Htree.
  rewrite bool_decide_eq_true_2 by done. cbn [orb].
  eexists. split; [reflexivity|]. split; [done|]. split.
  - intros Hin. apply list_elem_of_singleton in Hin. discriminate.
  - by repeat constructor.
Qed.

Lemma export_without_segments_witness :
  ∃ effs,
    download_segments_zip "out.zip" Decoded
        (mkApp "a.mp3" (Some "a.mp3") 10000 [2500] [] ("", info))
      = (mkApp "a.mp3" (Some "a.mp3") 10000 [2500] [] ("", info), effs, Returned) ∧
    effs = [showerror "Error" "No segments to export or no audio loaded."] ∧
    (asksaveasfilename ∉ effs) ∧
    Forall (λ e, writes e = false) effs.
Proof.
  exact (export_without_segments
           (mkApp "a.mp3" (Some "a.mp3") 10000 [2500] [] ("", info)) "out.zip" Decoded
           eq_refl).
Defined.

(** C6.  When the engine returns no chunk, [run_auto_split_task] puts the
    notice "No silence found to split on" in the status bar as a warning,
    which is not the error line of a failed run, schedules no update of the
    panel, and leaves the stored split points and the panel as they were. *)
Theorem no_chunks_notice {AudioSegment : Type} (len : AudioSegment → Z) (a : App) :
  ∃ a',
    run_auto_split_task len (Chunks []) a = (a', None) ∧
    split_points a' = split_points a ∧
    timestamp_tree a' = timestamp_tree a ∧
    status a' = ("No silence found to split on. Try adjusting parameters.", warning) ∧
    ∀ e, (status (run_auto_split_task len (Raised e) a).1).2 = error.
Proof. eexists. split; [reflexivity|]. done. Qed.

(** ** Reading the entry *)

Lemma split_without_sep sep s : Text.count sep s = O → Text.split sep s = [s].
Proof.
  induction s as [|c s IH]; simpl; [done|].
  case_decide; [done|]. intros H0. by rewrite (IH H0).
Qed.

Lemma split_many sep s :
  (2 ≤ Text.count sep s)%nat → ∃ x y z rest, Text.split sep s = x :: y :: z :: rest.
Proof.
  intros Hc. pose proof (length_split sep s) as Hl.
  destruct (Text.split sep s) as [|x [|y [|z rest]]]; simpl in Hl; try lia. eauto.
Qed.

Lemma count_of_two_parts sep s x y : Text.split sep s = [x; y] → Text.count sep s = 1%nat.
Proof. intros H. pose proof (length_split sep s) as Hl. rewrite H in Hl. simpl in Hl. lia. Qed.

Lemma contains_false sep s : Text.count sep s = O → Text.contains sep s = false.
Proof.
  intros H0. destruct (Text.contains sep s) eqn:Hc; [|done].
  apply contains_count in Hc. lia.
Qed.

Lemma contains_true sep s : (0 < Text.count sep s)%nat → Text.contains sep s = true.
Proof. apply contains_count. Qed.

Lemma parse_entry_many_colons t : (2 ≤ Text.count ":" t)%nat → parse_entry t = None.
Proof.
  intros Hc. unfold parse_entry. rewrite contains_true by lia.
  by destruct (split_many _ _ Hc) as (x & y & z & rest & ->).
Qed.

Lemma mins_secs_to_ms_None m s :
  Text.int m = None ∨ Text.int s = None → mins_secs_to_ms m s = None.
Proof.
  unfold mins_secs_to_ms. intros [->| ->]; [done|]. by destruct (Text.int m).
Qed.

Lemma parse_entry_bare t :
  Text.count ":" t = O → parse_entry t = (λ n, n * 1000) <$> Text.int t.
Proof.
  intros Hc. unfold parse_entry. rewrite contains_false by done.
  by destruct (Text.int t).
Qed.

Lemma mmss_to_ms_bare t :
  Text.count ":" t = O → mmss_to_ms t = (λ n, n * 1000) <$> Text.int t.
Proof.
  intros Hc. unfold mmss_to_ms. rewrite split_without_sep by done.
  unfold mins_secs_to_ms.
  assert (Text.int "0" = Some 0) as -> by reflexivity. simpl.
  destruct (Text.int t); simpl; [f_equal; lia|done].
Qed.

Lemma add_manual_split_from_entry_invalid entry a :
  audio_duration_ms a ≠ 0 → parse_entry (Text.strip entry) = None →
  add_manual_split_from_entry entry a =
  update_status "Invalid time format. Use mm:ss or seconds." error a.
Proof.
  intros Hd Hp. unfold add_manual_split_from_entry.
  by rewrite decide_False, Hp.
Qed.

(** C3, as the code has it.  Manual entry with a file loaded: the stripped
    text is refused as an invalid time format, the state otherwise
    untouched, when it has two or more colons, when one of its two parts is
    not an integer for [int()], or when it has no colon and is not an
    integer; a negative bare value is not refused but stored as the point 0.
    [mmss_to_ms]: two or more colons read as 0 ms, a part that is not an
    integer raises [ValueError], and a bare value, negative or not, is its
    integer times 1000. *)
Theorem time_text_errors (a : App) (entry mmss : string) :
  audio_duration_ms a ≠ 0 →
  let t := Text.strip entry in
  let invalid := update_status "Invalid time format. Use mm:ss or seconds." error a in
  ((2 ≤ Text.count ":" t)%nat → add_manual_split_from_entry entry a = invalid) ∧
  (∀ m s, Text.split ":" t = [m; s] → Text.int m = None ∨ Text.int s = None →
     add_manual_split_from_entry entry a = invalid) ∧
  (Text.count ":" t = O → Text.int t = None →
     add_manual_split_from_entry entry a = invalid) ∧
  (∀ n, Text.count ":" t = O → Text.int t = Some n → n < 0 →
     0 ∈ split_points (add_manual_split_from_entry entry a) ∧
     (status (add_manual_split_from_entry entry a)).2 = success) ∧
  ((2 ≤ Text.count ":" mmss)%nat → mmss_to_ms mmss = Some 0) ∧
  (∀ m s, Text.split ":" mmss = [m; s] → Text.int m = None ∨ Text.int s = None →
     mmss_to_ms mmss = None) ∧
  (Text.count ":" mmss = O → mmss_to_ms mmss = (λ n, n * 1000) <$> Text.int mmss).
Proof.
  intros Hd t invalid.
  split; [|split; [|split; [|split; [|split; [|split]]]]].
  - intros Hc. apply add_manual_split_from_entry_invalid; [done|].
    by apply parse_entry_many_colons.
  - intros m s Hsplit Hint. apply add_manual_split_from_entry_invalid; [done|].
    unfold parse_entry. fold t.
    rewrite contains_true by (rewrite (count_of_two_parts _ _ _ _ Hsplit); lia).
    rewrite Hsplit. by apply mins_secs_to_ms_None.
  - intros Hc Hint. apply add_manual_split_from_entry_invalid; [done|].
    fold t. by rewrite parse_entry_bare, Hint.
  - intros n Hc Hint Hneg. unfold add_manual_split_from_entry. fold t.
    rewrite decide_False by done. rewrite parse_entry_bare by done.
    rewrite Hint. simpl.
    assert (clamp (audio_duration_ms a) (n * 1000) = 0) as -> by (unfold clamp; lia).
    split; [|done].
    case_decide; simpl; [done|]. apply elem_of_app. right. by left.
  - intros Hc. unfold mmss_to_ms.
    by destruct (split_many _ _ Hc) as (x & y & z & rest & ->).
  - intros m s Hsplit Hint. unfold mmss_to_ms. rewrite Hsplit.
    by apply mins_secs_to_ms_None.
  - apply mmss_to_ms_bare.
Qed.

Lemma time_text_errors_witness :
  let a := mkApp "a.mp3" (Some "a.mp3") 10000 [] [] ("", info) in
  let t := Text.strip " -5 " in
  let invalid := update_status "Invalid time format. Use mm:ss or seconds." error a in
  ((2 ≤ Text.count ":" t)%nat → add_manual_split_from_entry " -5 " a = invalid) ∧
  (∀ m s, Text.split ":" t = [m; s] → Text.int m = None ∨ Text.int s = None →
     add_manual_split_from_entry " -5 " a = invalid) ∧
  (Text.count ":" t = O → Text.int t = None →
     add_manual_split_from_entry " -5 " a = invalid) ∧
  (∀ n, Text.count ":" t = O → Text.int t = Some n → n < 0 →
     0 ∈ split_points (add_manual_split_from_entry " -5 " a) ∧
     (status (add_manual_split_from_entry " -5 " a)).2 = success) ∧
  ((2 ≤ Text.count ":" "1:2:3")%nat → mmss_to_ms "1:2:3" = Some 0) ∧
  (∀ m s, Text.split ":" "1:2:3" = [m; s] → Text.int m = None ∨ Text.int s = None →
     mmss_to_ms "1:2:3" = None) ∧
  (Text.count ":" "1:2:3" = O → mmss_to_ms "1:2:3" = (λ n, n * 1000) <$> Text.int "1:2:3").
Proof.
  exact (time_text_errors (mkApp "a.mp3" (Some "a.mp3") 10000 [] [] ("", info))
           " -5 " "1:2:3" ltac:(simpl; lia)).
Defined.

(** C3 as stated fails: a negative bare value is accepted, by [mmss_to_ms]
    as a negative time and by manual entry as the point 0, and [mmss_to_ms]
    reads a text with two colons as 0 ms. *)
Lemma invalid_format_counterexample :
  mmss_to_ms "-5" = Some (-5000) ∧
  mmss_to_ms "1:2:3" = Some 0 ∧
  add_manual_split_from_entry "-5" (mkApp "a.mp3" (Some "a.mp3") 10000 [] [] ("", info)) =
    mkApp "a.mp3" (Some "a.mp3") 10000 [0] [Row 1 "00:00" "00:10"]
      ("Added split point at 00:00", success).
Proof. vm_compute. done. Qed.

(** ** Auto-split passes *)

Section PassFacts.
Context {AudioSegment : Type} (len : AudioSegment → Z).

Lemma split_points_auto_split_on_param_change entry a :
  split_points (auto_split_on_param_change entry a).1 = split_points a.
Proof.
  unfold auto_split_on_param_change. case_decide; [done|].
  by destruct (parse_entry _).
Qed.

Lemma split_points_run_auto_split_task res a :
  split_points (run_auto_split_task len res a).1 = split_points a.
Proof. by destruct res as [e|[|c chunks]]. Qed.

(** No event of an auto-split pass touches the stored points. *)
Lemma split_points_step w ev :
  auto_split_event ev = true →
  split_points (app (step len w ev)) = split_points (app w).
Proof.
  destruct ev as [entry|i res| |ev|entry]; simpl; try done; intros _.
  - pose proof (split_points_auto_split_on_param_change entry (app w)) as H.
    by destruct (auto_split_on_param_change entry (app w)).
  - destruct (running w !! i); [|done].
    pose proof (split_points_run_auto_split_task res (app w)) as H.
    by destruct (run_auto_split_task len res (app w)).
  - by destruct (scheduled w).
Qed.

Lemma split_points_run w evs :
  forallb auto_split_event evs = true →
  split_points (app (run len w evs)) = split_points (app w).
Proof.
  unfold run. revert w. induction evs as [|ev evs IH]; intros w; simpl; [done|].
  intros [Hev Hevs]%andb_prop. rewrite IH by done.
  by apply split_points_step.
Qed.

(** One pass from rest: the panel ends up with the engine's chunks. *)
Lemma auto_split_pass w entry min_silence_len c chunks :
  source_file_path (app w) ≠ "" →
  parse_entry (Text.strip entry) = Some min_silence_len →
  running w = [] → scheduled w = [] →
  run len w [ParamChange entry; TaskDone 0 (Chunks (c :: chunks)); RunScheduled] =
  mkWorld
    (update_tree (timestamps len (c :: chunks))
       (update_status "Splitting on silence (auto)..." info
          (set_timestamp_tree [] (app w)))) [] [].
Proof.
  intros Hsrc Hparse Hrun Hsched. unfold run. cbn [foldl step].
  unfold auto_split_on_param_change. rewrite decide_False by done.
  rewrite Hparse, Hrun, Hsched. done.
Qed.

End PassFacts.

(** C4, as the code has it.  An auto-split pass does not remove, change or
    add stored manual split points, and does not merge them with the
    engine's result either.  Whatever sequence of parameter changes, task
    ends and scheduled panel updates happens, [split_points] stays the
    same.  In any state, with a file selected and a valid entry: starting a
    pass empties the panel and starts one thread; the end of a thread on a
    non-empty chunk list leaves the panel alone and schedules one update
    with the chunks' accumulated time stamps; a scheduled update, when it
    runs, appends exactly the rows of its time stamps to whatever the panel
    then holds.  So a pass that starts from rest and runs with nothing in
    between leaves in the panel exactly the display of the chunks'
    accumulated time stamps. *)
Theorem auto_split_leaves_manual_points_aside {AudioSegment : Type}
    (len : AudioSegment → Z) (w : World) (evs : list event)
    (entry : string) (min_silence_len : Z) (chunks : list AudioSegment) :
  forallb auto_split_event evs = true →
  source_file_path (app w) ≠ "" →
  parse_entry (Text.strip entry) = Some min_silence_len →
  chunks ≠ [] →
  split_points (app (run len w evs)) = split_points (app w) ∧
  (timestamp_tree (app (step len w (ParamChange entry))) = [] ∧
   running (step len w (ParamChange entry)) =
     running w ++ [(source_file_path (app w), min_silence_len)] ∧
   scheduled (step len w (ParamChange entry)) = scheduled w) ∧
  (∀ i, is_Some (running w !! i) →
   timestamp_tree (app (step len w (TaskDone i (Chunks chunks)))) = timestamp_tree (app w) ∧
   running (step len w (TaskDone i (Chunks chunks))) = delete i (running w) ∧
   scheduled (step len w (TaskDone i (Chunks chunks))) =
     scheduled w ++ [timestamps len chunks]) ∧
  (∀ ts rest, scheduled w = ts :: rest →
   timestamp_tree (app (step len w RunScheduled)) =
     timestamp_tree (app w) ++ (display <$> ts) ∧
   running (step len w RunScheduled) = running w ∧
   scheduled (step len w RunScheduled) = rest) ∧
  (running w = [] → scheduled w = [] →
   let w' := run len w [ParamChange entry; TaskDone 0 (Chunks chunks); RunScheduled] in
   split_points (app w') = split_points (app w) ∧
   timestamp_tree (app w') = display <$> timestamps len chunks).
Proof.
  intros Hevs Hsrc Hparse Hne. destruct chunks as [|c chunks]; [done|].
  split; [by apply split_points_run|]. split_and!.
  - simpl. unfold auto_split_on_param_change.
    by rewrite decide_False, Hparse by done.
  - simpl. unfold auto_split_on_param_change.
    by rewrite decide_False, Hparse by done.
  - simpl. unfold auto_split_on_param_change.
    by rewrite decide_False, Hparse by done.
  - intros i [th Hth]. simpl. by rewrite Hth.
  - intros ts rest Hsched. simpl. by rewrite Hsched.
  - intros Hrun Hsched w'. subst w'.
    by rewrite (auto_split_pass len w entry min_silence_len) by done.
Qed.

Lemma auto_split_leaves_manual_points_aside_witness :
  let w := mkWorld (mkApp "a.mp3" (Some "a.mp3") 10000 [2500]
                      [Row 1 "00:00" "00:02"; Row 2 "00:02" "00:10"] ("", info)) [] [] in
  let evs := [ParamChange "00:02"; ParamChange "00:01"; TaskDone 1 (Chunks [10000])] in
  split_points (app (run id w evs)) = split_points (app w) ∧
  (timestamp_tree (app (step id w (ParamChange "00:01"))) = [] ∧
   running (step id w (ParamChange "00:01")) =
     running w ++ [(source_file_path (app w), 1000)] ∧
   scheduled (step id w (ParamChange "00:01")) = scheduled w) ∧
  (∀ i, is_Some (running w !! i) →
   timestamp_tree (app (step id w (TaskDone i (Chunks [4200; 5800])))) =
     timestamp_tree (app w) ∧
   running (step id w (TaskDone i (Chunks [4200; 5800]))) = delete i (running w) ∧
   scheduled (step id w (TaskDone i (Chunks [4200; 5800]))) =
     scheduled w ++ [timestamps id [4200; 5800]]) ∧
  (∀ ts rest, scheduled w = ts :: rest →
   timestamp_tree (app (step id w RunScheduled)) =
     timestamp_tree (app w) ++ (display <$> ts) ∧
   running (step id w RunScheduled) = running w ∧
   scheduled (step id w RunScheduled) = rest) ∧
  (running w = [] → scheduled w = [] →
   let w' := run id w [ParamChange "00:01"; TaskDone 0 (Chunks [4200; 5800]); RunScheduled] in
   split_points (app w') = split_points (app w) ∧
   timestamp_tree (app w') = display <$> timestamps id [4200; 5800]).
Proof.
  exact (auto_split_leaves_manual_points_aside id
           (mkWorld (mkApp "a.mp3" (Some "a.mp3") 10000 [2500]
                       [Row 1 "00:00" "00:02"; Row 2 "00:02" "00:10"] ("", info)) [] [])
           [ParamChange "00:02"; ParamChange "00:01"; TaskDone 1 (Chunks [10000])]
           "00:01" 1000 [4200; 5800]
           eq_refl ltac:(discriminate) eq_refl ltac:(discriminate)).
Defined.

(** A pass with an entry of the user between its start and the delivery of
    its result: the update is appended to the rows derived in between. *)
Example auto_split_pass_interleaved :
  let w := mkWorld (mkApp "a.mp3" (Some "a.mp3") 10000 [2500] [] ("", info)) [] [] in
  let w' := run id w [ParamChange "00:01"; SplitButton "00:05";
                      TaskDone 0 (Chunks [4200; 5800]); RunScheduled] in
  split_points (app w') = [2500; 5000] ∧
  timestamp_tree (app w') =
    [Row 1 "00:00" "00:02"; Row 2 "00:02" "00:05"; Row 3 "00:05" "00:10";
     Row 1 "00:00" "00:04"; Row 2 "00:04" "00:10"].
Proof. vm_compute. done. Qed.

(** C4 as stated fails.  A file of 10 s with the manual point 2500 stored
    and shown; the engine returns two chunks of 4200 and 5800 ms.  After
    the pass the panel shows the two chunks only: no row starts or ends at
    the manual point, although it is still stored; and the engine's boundary
    4200 is not among the stored points. *)
Lemma auto_split_union_counterexample :
  let w := mkWorld (mkApp "a.mp3" (Some "a.mp3") 10000 [2500]
                      [Row 1 "00:00" "00:02"; Row 2 "00:02" "00:10"] ("", info)) [] [] in
  let w' := run id w [ParamChange "00:01"; TaskDone 0 (Chunks [4200; 5800]); RunScheduled] in
  timestamp_tree (app w') = [Row 1 "00:00" "00:04"; Row 2 "00:04" "00:10"] ∧
  split_points (app w') = [2500] ∧
  ¬ (∀ p, p ∈ split_points (app w') →
       ∃ r, r ∈ timestamp_tree (app w') ∧
            (start_text r = ms_to_mmss p ∨ end_text r = ms_to_mmss p)).
Proof.
  assert (timestamp_tree (app (run id
            (mkWorld (mkApp "a.mp3" (Some "a.mp3") 10000 [2500]
                        [Row 1 "00:00" "00:02"; Row 2 "00:02" "00:10"] ("", info)) [] [])
            [ParamChange "00:01"; TaskDone 0 (Chunks [4200; 5800]); RunScheduled]))
          = [Row 1 "00:00" "00:04"; Row 2 "00:04" "00:10"]) as Htree
      by (vm_compute; done).
  cbv zeta. rewrite Htree. split; [done|]. split; [by vm_compute|].
  intros Hall. destruct (Hall 2500) as (r & Hr & Hp).
  { vm_compute. left. }
  assert (ms_to_mmss 2500 = "00:02") as Hmm by (vm_compute; done).
  rewrite Hmm in Hp.
  apply elem_of_cons in Hr as [->|Hr]; [simpl in Hp; by destruct Hp|].
  apply list_elem_of_singleton in Hr as ->. simpl in Hp. by destruct Hp.
Qed.

(** A click after the pass refills the panel from the stored points alone:
    the engine's boundary at 4200 ms is gone again. *)
Example click_after_auto_split :
  let w := mkWorld (mkApp "a.mp3" (Some "a.mp3") 10000 [2500]
                      [Row 1 "00:00" "00:02"; Row 2 "00:02" "00:10"] ("", info)) [] [] in
  let w' := run id w [ParamChange "00:01"; TaskDone 0 (Chunks [4200; 5800]);
                      RunScheduled; WaveformClick (Click true 7000)] in
  split_points (app w') = [2500; 7000] ∧
  timestamp_tree (app w') =
    [Row 1 "00:00" "00:02"; Row 2 "00:02" "00:07"; Row 3 "00:07" "00:10"].
Proof. vm_compute. done. Qed.

(** C10 fails on the code.  Two parameter changes in a row start two
    threads; nothing refuses the second start and nothing marks the first
    run as superseded.  When the first thread ends after the second start,
    its rows are put in the panel all the same, and the rows of the second
    run are appended after them. *)
Lemma stale_auto_split_result_applied :
  let w0 := mkWorld (mkApp "a.mp3" (Some "a.mp3") 10000 [] [] ("", info)) [] [] in
  let w1 := run id w0 [ParamChange "00:05"; ParamChange "00:01"] in
  let w2 := run id w1 [TaskDone 0 (Chunks [10000]); RunScheduled] in
  let w3 := run id w2 [TaskDone 0 (Chunks [4200; 5800]); RunScheduled] in
  running w1 = [("a.mp3", 5000); ("a.mp3", 1000)] ∧
  timestamp_tree (app w1) = [] ∧
  timestamp_tree (app w2) = [Row 1 "00:00" "00:10"] ∧
  running w2 = [("a.mp3", 1000)] ∧
  timestamp_tree (app w3) =
    [Row 1 "00:00" "00:10"; Row 1 "00:00" "00:04"; Row 2 "00:04" "00:10"].
Proof. vm_compute. done. Qed.

(** * Further properties of the code *)

(** ** The time codec on all integers *)

Section CodecFacts.
Import Text.

Lemma count_app sep s t : count sep (s +:+ t) = (count sep s + count sep t)%nat.
Proof.
  induction s as [|c s IH]; [done|]. rewrite append_cons. simpl.
  case_decide; rewrite IH; lia.
Qed.

Lemma count_digits s : all_digits s = true → count ":" s = O.
Proof.
  induction s as [|c s IH]; simpl; [done|].
  intros [Hc Hs]%andb_prop. destruct (is_digit_plain c Hc) as (_ & _ & _ & _ & Hcolon).
  case_decide; [done|]. auto.
Qed.

(** A negative number prints as a minus sign and its digits. *)
Lemma format_02d_neg z :
  z < 0 → format_02d z = String "-" (decimal (Z.to_N (- z))).
Proof.
  intros Hz. unfold format_02d. rewrite decide_True by done. f_equal.
  unfold zfill. pose proof (decimal_not_empty (Z.to_N (- z))) as Hne.
  destruct (decimal (Z.to_N (- z))) as [|c r]; [done|]. reflexivity.
Qed.

Lemma count_format_02d z : count ":" (format_02d z) = O.
Proof.
  destruct (decide (z < 0)) as [Hz|Hz].
  - rewrite format_02d_neg by done. simpl. apply count_digits, all_digits_decimal.
  - apply count_digits, all_digits_format_02d. lia.
Qed.

Lemma int_neg_digits s u :
  all_digits s = true → s ≠ "" → NilEmpty.uint_of_string s = Some u →
  int (String "-" s) = Some (- Z.of_N (N.of_uint u)).
Proof.
  intros Hs Hne Hu. unfold int.
  assert (lstrip int_space (String "-" s) = String "-" s) as -> by done.
  assert (rstrip int_space (String "-" s) = String "-" s) as ->.
  { simpl. rewrite (rstrip_digits s Hs). by destruct s. }
  rewrite (digit_groups_digits false _ Hs) by auto.
  simpl. by rewrite Hu.
Qed.

(** [int] reads back what [{z:02d}] prints, whatever the sign. *)
Lemma int_format_02d_all z : int (format_02d z) = Some z.
Proof.
  destruct (decide (z < 0)) as [Hz|Hz]; [|apply int_format_02d; lia].
  rewrite format_02d_neg by done.
  rewrite (int_neg_digits _ (N.to_uint (Z.to_N (- z)))).
  - rewrite DecimalN.Unsigned.of_to. f_equal. lia.
  - apply all_digits_decimal.
  - apply decimal_not_empty.
  - rewrite decimal_unfold. apply NilEmpty.usu.
Qed.

Lemma split_app_sep sep s t :
  count sep s = O → split sep (s +:+ String sep t) = s :: split sep t.
Proof.
  induction s as [|c s IH]; rewrite ?append_nil, ?append_cons; simpl.
  - by rewrite decide_True.
  - case_decide; [done|]. intros H0. by rewrite (IH H0).
Qed.

Lemma split_ms_to_mmss ms :
  split ":" (ms_to_mmss ms) = [format_02d (ms / 1000 / 60); format_02d ((ms / 1000) mod 60)].
Proof.
  unfold ms_to_mmss. cbv zeta.
  change (":" +:+ format_02d ((ms / 1000) mod 60))
    with (String ":" (format_02d ((ms / 1000) mod 60))).
  rewrite split_app_sep by apply count_format_02d.
  by rewrite split_without_sep by apply count_format_02d.
Qed.

Lemma mmss_to_ms_ms_to_mmss_all ms : mmss_to_ms (ms_to_mmss ms) = Some (ms / 1000 * 1000).
Proof.
  unfold mmss_to_ms. rewrite split_ms_to_mmss.
  unfold mins_secs_to_ms. rewrite !int_format_02d_all. simpl.
  f_equal. pose proof (Z.div_mod (ms / 1000) 60). lia.
Qed.

Lemma count_ms_to_mmss ms : count ":" (ms_to_mmss ms) = 1%nat.
Proof.
  pose proof (length_split ":" (ms_to_mmss ms)) as H.
  rewrite split_ms_to_mmss in H. simpl in H. lia.
Qed.

End CodecFacts.

(** X1.  The round trip of the time codec holds on every integer, negative
    ones included: the text [ms_to_mmss] prints has exactly one colon, and
    [mmss_to_ms] reads it back as [ms] rounded down to a whole second. *)
Theorem mmss_round_trip_all_integers (ms : Z) :
  Text.count ":" (ms_to_mmss ms) = 1%nat ∧
  mmss_to_ms (ms_to_mmss ms) = Some (ms / 1000 * 1000).
Proof. split; [apply count_ms_to_mmss|apply mmss_to_ms_ms_to_mmss_all]. Qed.

(** X2.  Two times are displayed by the same text exactly when they fall in
    the same second. *)
Theorem ms_to_mmss_same_second (a b : Z) :
  ms_to_mmss a = ms_to_mmss b ↔ a / 1000 = b / 1000.
Proof.
  split.
  - intros Heq. pose proof (mmss_to_ms_ms_to_mmss_all a) as Ha.
    rewrite Heq, mmss_to_ms_ms_to_mmss_all in Ha. simplify_eq. lia.
  - intros Heq. unfold ms_to_mmss. by rewrite Heq.
Qed.

Section ShapeFacts.
Import Text.

Lemma length_append s t :
  String.length (s +:+ t) = (String.length s + String.length t)%nat.
Proof. induction s as [|c s IH]; [done|]. rewrite append_cons. simpl. by rewrite IH. Qed.

Lemma length_zeros k : String.length (zeros k) = k.
Proof. induction k; simpl; auto. Qed.

Lemma length_zfill w ds : String.length (zfill w ds) = (w `max` String.length ds)%nat.
Proof. unfold zfill. rewrite length_append, length_zeros. lia. Qed.

(** Numbers below 60 have at most two digits. *)
Lemma length_decimal_below_60 n : (n < 60)%N → (String.length (decimal n) ≤ 2)%nat.
Proof.
  intros Hn.
  assert (forallb (λ k, String.length (decimal (N.of_nat k)) <=? 2)%nat (seq 0 60) = true)
    as Hall by (vm_compute; reflexivity).
  rewrite forallb_forall in Hall. specialize (Hall (N.to_nat n)).
  rewrite N2Nat.id in Hall. apply Nat.leb_le, Hall.
  apply in_seq. lia.
Qed.

End ShapeFacts.

(** X3.  The text of a non-negative time is [mm:ss] in digits: the minutes
    take two characters or more, the seconds exactly two, and the two
    fields read back as the minutes and as the seconds below 60. *)
Theorem ms_to_mmss_shape (ms : Z) :
  0 ≤ ms →
  ∃ mm ss,
    ms_to_mmss ms = mm +:+ ":" +:+ ss ∧
    Text.all_digits mm = true ∧ Text.all_digits ss = true ∧
    (2 ≤ String.length mm)%nat ∧ String.length ss = 2%nat ∧
    Text.int mm = Some (ms / 1000 / 60) ∧
    Text.int ss = Some ((ms / 1000) mod 60) ∧ 0 ≤ (ms / 1000) mod 60 < 60.
Proof.
  intros Hms.
  assert (0 ≤ ms / 1000 / 60) as Hm by (apply Z.div_pos; [apply Z.div_pos|]; lia).
  assert (0 ≤ (ms / 1000) mod 60 < 60) as Hs by (apply Z.mod_pos_bound; lia).
  exists (Text.format_02d (ms / 1000 / 60)), (Text.format_02d ((ms / 1000) mod 60)).
  split; [done|].
  split; [apply all_digits_format_02d; lia|].
  split; [apply all_digits_format_02d; lia|].
  split; [rewrite format_02d_nonneg, length_zfill by lia; lia|].
  split.
  { rewrite format_02d_nonneg, length_zfill by lia.
    pose proof (length_decimal_below_60 (Z.to_N ((ms / 1000) mod 60))). lia. }
  split; [apply int_format_02d; lia|]. split; [apply int_format_02d; lia|done].
Qed.

Lemma ms_to_mmss_shape_witness :
  ∃ mm ss,
    ms_to_mmss 6061999 = mm +:+ ":" +:+ ss ∧
    Text.all_digits mm = true ∧ Text.all_digits ss = true ∧
    (2 ≤ String.length mm)%nat ∧ String.length ss = 2%nat ∧
    Text.int mm = Some (6061999 / 1000 / 60) ∧
    Text.int ss = Some ((6061999 / 1000) mod 60) ∧ 0 ≤ (6061999 / 1000) mod 60 < 60.
Proof. apply (ms_to_mmss_shape 6061999). lia. Defined.

(** X4.  The entry parser of the handlers and [mmss_to_ms] read a text the
    same way as long as it has at most one colon; with two colons or more
    the entry parser refuses the text. *)
Theorem parse_entry_agrees_with_mmss_to_ms (t : string) :
  parse_entry t =
    if decide (Text.count ":" t ≤ 1)%nat then mmss_to_ms t else None.
Proof.
  case_decide as Hc.
  - destruct (Text.count ":" t) as [|[|n]] eqn:Hcount; [| |lia].
    + by rewrite parse_entry_bare, mmss_to_ms_bare.
    + unfold parse_entry, mmss_to_ms. rewrite contains_true by lia.
      pose proof (length_split ":" t) as Hl. rewrite Hcount in Hl.
      by destruct (Text.split ":" t) as [|m [|s [|x rest]]].
  - apply parse_entry_many_colons. lia.
Qed.

(** ** The segments as a function of the stored points *)

Lemma sorted_NoDup_unique (l1 l2 : list Z) :
  StronglySorted Z.le l1 → StronglySorted Z.le l2 → NoDup l1 → NoDup l2 →
  (∀ x, x ∈ l1 ↔ x ∈ l2) → l1 = l2.
Proof.
  intros Hs1 Hs2 Hn1 Hn2 Hel.
  apply (StronglySorted_unique_strong Z.le); [|done..|by apply NoDup_Permutation].
  intros. lia.
Qed.

Lemma boundary_points_unique d ps l :
  StronglySorted Z.le l → NoDup l →
  (∀ x, x ∈ l ↔ 0 ≤ x ≤ d ∧ (x = 0 ∨ x ∈ ps ∨ (d ≠ 0 ∧ x = d))) →
  boundary_points d ps = l.
Proof.
  intros Hs Hn Hel. apply sorted_NoDup_unique;
    [apply boundary_points_sorted|done|apply boundary_points_NoDup|done|].
  intros x. by rewrite elem_of_boundary_points, Hel.
Qed.

Lemma derive_segments_ext_points d l1 l2 :
  (∀ x, x ∈ l1 ↔ x ∈ l2) → derive_segments d l1 = derive_segments d l2.
Proof. intros H. unfold derive_segments. by rewrite (boundary_points_ext d l1 l2). Qed.

(** The boundary list depends on the stored points strictly inside the file
    only. *)
Lemma boundary_points_interior d l1 l2 :
  (∀ x, 0 < x < d → x ∈ l1 ↔ x ∈ l2) → boundary_points d l1 = boundary_points d l2.
Proof.
  intros H. apply boundary_points_unique;
    [apply boundary_points_sorted|apply boundary_points_NoDup|].
  intros x. rewrite elem_of_boundary_points.
  destruct (decide (0 < x < d)) as [Hx|Hx]; [rewrite (H x Hx); tauto|].
  split; (intros [Hr Hc]; split; [done|]);
    destruct (decide (x = 0)); auto; right; right; lia.
Qed.

Lemma boundary_points_no_audio ps : boundary_points 0 ps = [0].
Proof.
  apply boundary_points_unique; [repeat constructor|apply NoDup_singleton|].
  intros x. rewrite list_elem_of_singleton. split; [intros ->|]; intuition lia.
Qed.

Lemma boundary_points_length_interior d ps :
  0 < d →
  length (boundary_points d ps) =
    S (S (length (remove_dups (filter (λ x, 0 < x < d) ps)))).
Proof.
  intros Hd.
  set (inner := remove_dups (filter (λ x, 0 < x < d) ps)).
  assert (∀ x, x ∈ inner ↔ 0 < x < d ∧ x ∈ ps) as Hinner.
  { intros x. unfold inner. by rewrite elem_of_remove_dups, list_elem_of_filter. }
  assert (boundary_points d ps ≡ₚ 0 :: d :: inner) as ->; [|done].
  apply NoDup_Permutation; [apply boundary_points_NoDup| |].
  - rewrite !NoDup_cons, elem_of_cons, !Hinner.
    split; [lia|]. split; [lia|]. apply NoDup_remove_dups.
  - intros x. rewrite elem_of_boundary_points, !elem_of_cons, Hinner.
    destruct (decide (x = 0)); [intuition lia|].
    destruct (decide (x = d)); [intuition lia|]. intuition lia.
Qed.

(** Every boundary starts or ends a derived segment. *)
Lemma boundary_in_segments d ps p :
  0 < d → p ∈ boundary_points d ps →
  ∃ s, s ∈ derive_segments d ps ∧ (start_ms s = p ∨ end_ms s = p).
Proof.
  intros Hd Hin.
  pose proof (boundary_points_length d ps Hd) as Hlen.
  apply list_elem_of_lookup in Hin as [i Hi].
  pose proof (lookup_lt_Some _ _ _ Hi) as Hlt.
  unfold derive_segments.
  destruct (decide (S i < length (boundary_points d ps))%nat) as [Hnext|Hlast].
  - eexists. split.
    + eapply list_elem_of_lookup_2, consecutive_lookup, Hnext.
    + left. simpl. by apply list_lookup_total_correct.
  - destruct i as [|j]; [lia|]. eexists. split.
    + eapply list_elem_of_lookup_2, (consecutive_lookup _ j). lia.
    + right. simpl. by apply list_lookup_total_correct.
Qed.

Lemma segment_bounds_are_boundaries d ps s :
  s ∈ derive_segments d ps →
  start_ms s ∈ boundary_points d ps ∧ end_ms s ∈ boundary_points d ps.
Proof.
  intros (i & Hi)%list_elem_of_lookup. unfold derive_segments in Hi.
  apply consecutive_lookup_Some in Hi as [Hlt ->]. simpl.
  split; apply list_elem_of_lookup_total_2; lia.
Qed.

(** X5.  The [i]-th derived segment (from 0) has the track number [i+1], a
    positive length, and lies inside the file. *)
Theorem derive_segments_numbered_and_increasing (d : Z) (ps : list Z)
    (i : nat) (s : segment) :
  derive_segments d ps !! i = Some s →
  ordinal s = Z.of_nat i + 1 ∧ 0 ≤ start_ms s ∧ start_ms s < end_ms s ∧ end_ms s ≤ d.
Proof.
  intros Hi.
  pose proof (list_elem_of_lookup_2 _ _ _ Hi) as Hin.
  pose proof (derive_segments_bounds d ps s Hin).
  pose proof (derive_segments_increasing d ps s Hin).
  unfold derive_segments in Hi.
  apply consecutive_lookup_Some in Hi as [_ ->]. simpl in *. lia.
Qed.

Lemma derive_segments_numbered_and_increasing_witness :
  ordinal (Segment 2 2000 7000) = Z.of_nat 1 + 1 ∧
  0 ≤ start_ms (Segment 2 2000 7000) ∧
  start_ms (Segment 2 2000 7000) < end_ms (Segment 2 2000 7000) ∧
  end_ms (Segment 2 2000 7000) ≤ 10000.
Proof.
  apply (derive_segments_numbered_and_increasing 10000 [7000; 2000; 7000; 12000] 1).
  vm_compute. reflexivity.
Defined.

(** X6.  With a file loaded, the times at which derived segments start or
    end are exactly 0, the duration, and the stored points that lie in the
    file: no stored point of the file is lost and no other boundary is
    made up. *)
Theorem derive_segments_boundaries (d : Z) (ps : list Z) (p : Z) :
  0 < d →
  (∃ s, s ∈ derive_segments d ps ∧ (start_ms s = p ∨ end_ms s = p)) ↔
  0 ≤ p ≤ d ∧ (p = 0 ∨ p = d ∨ p ∈ ps).
Proof.
  intros Hd. split.
  - intros (s & Hs & Hp).
    destruct (segment_bounds_are_boundaries d ps s Hs) as [Hstart Hend].
    assert (p ∈ boundary_points d ps) as Hin by (by destruct Hp as [<-| <-]).
    apply elem_of_boundary_points in Hin. intuition.
  - intros [Hr Hc]. apply boundary_in_segments; [done|].
    apply elem_of_boundary_points. split; [done|].
    destruct Hc as [->|[->|Hin]]; auto. right. right. split; [lia|done].
Qed.

Lemma derive_segments_boundaries_witness :
  (∃ s, s ∈ derive_segments 10000 [7000; 2000; 12000] ∧
        (start_ms s = 7000 ∨ end_ms s = 7000)) ↔
  0 ≤ 7000 ≤ 10000 ∧ (7000 = 0 ∨ 7000 = 10000 ∨ 7000 ∈ [7000; 2000; 12000]).
Proof. apply (derive_segments_boundaries 10000 [7000; 2000; 12000] 7000). lia. Defined.

(** X7.  The derived segments depend only on which points strictly inside
    the file are stored: the order of the list, repeated points, points
    outside the file and stored copies of 0 or of the duration make no
    difference. *)
Theorem derive_segments_set_of_points (d : Z) (l1 l2 : list Z) :
  (∀ x, 0 < x < d → x ∈ l1 ↔ x ∈ l2) →
  derive_segments d l1 = derive_segments d l2.
Proof. intros H. unfold derive_segments. by rewrite (boundary_points_interior d l1 l2). Qed.

Lemma derive_segments_set_of_points_witness :
  derive_segments 10000 [7000; 2000; 7000; 0; 12000; -5] =
  derive_segments 10000 [2000; 10000; 7000].
Proof.
  apply (derive_segments_set_of_points 10000).
  intros x Hx. rewrite !elem_of_cons, !elem_of_nil. lia.
Defined.

(** X8.  With a file loaded there is one segment more than there are
    distinct stored points strictly inside the file. *)
Theorem derive_segments_count (d : Z) (ps : list Z) :
  0 < d →
  length (derive_segments d ps) =
    S (length (remove_dups (filter (λ x, 0 < x < d) ps))).
Proof.
  intros Hd. unfold derive_segments.
  rewrite length_consecutive, boundary_points_length_interior by done. lia.
Qed.

Lemma derive_segments_count_witness :
  length (derive_segments 10000 [7000; 2000; 7000; 0; 12000]) =
    S (length (remove_dups (filter (λ x, 0 < x < 10000) [7000; 2000; 7000; 0; 12000]))).
Proof. apply (derive_segments_count 10000). lia. Defined.

(** X9.  While no audio is loaded (duration 0) the split handlers do
    nothing to the split state: a click is ignored, the entry button only
    reports "No audio loaded.", and whatever points are stored, no segment
    is derived from them. *)
Theorem no_audio_no_segments (a : App) (ev : click) (entry : string) :
  audio_duration_ms a = 0 →
  on_waveform_click ev a = a ∧
  add_manual_split_from_entry entry a = update_status "No audio loaded." error a ∧
  derive_segments (audio_duration_ms a) (split_points a) = [] ∧
  timestamp_tree (add_manual_splits a) = [].
Proof.
  intros Hd. split; [|split; [|split]].
  - unfold on_waveform_click. rewrite bool_decide_eq_true_2 by done.
    by rewrite orb_true_r.
  - unfold add_manual_split_from_entry. by rewrite decide_True.
  - unfold derive_segments. by rewrite Hd, boundary_points_no_audio.
  - unfold add_manual_splits, update_manual_split_segments, derive_segments.
    cbn [timestamp_tree update_status set_timestamp_tree].
    by rewrite Hd, boundary_points_no_audio.
Qed.

Lemma no_audio_no_segments_witness :
  let a := mkApp "" None 0 [2500; 0] [Row 1 "00:00" "00:10"] ("", info) in
  on_waveform_click (Click true 100) a = a ∧
  add_manual_split_from_entry "00:05" a = update_status "No audio loaded." error a ∧
  derive_segments (audio_duration_ms a) (split_points a) = [] ∧
  timestamp_tree (add_manual_splits a) = [].
Proof.
  exact (no_audio_no_segments
           (mkApp "" None 0 [2500; 0] [Row 1 "00:00" "00:10"] ("", info))
           (Click true 100) "00:05" eq_refl).
Defined.

(** ** Edits of the split points *)

Section EditFacts.
Context {AudioSegment : Type} (len : AudioSegment → Z).

Lemma clamp_range d ms : 0 ≤ d → 0 ≤ clamp d ms ≤ d.
Proof. unfold clamp. lia. Qed.

(** What a click or the entry button does, seen from outside: it adds at
    most one point, which depends on the event and on the duration only,
    and if it adds one the panel is derived anew. *)
Lemma edit_effect (ev : @event AudioSegment) d :
  auto_split_event ev = false →
  ∃ added : option Z,
    (∀ x, added = Some x → 0 ≤ d → 0 ≤ x ≤ d) ∧
    ∀ w, audio_duration_ms (app w) = d →
      audio_duration_ms (app (step len w ev)) = d ∧
      (∀ x, x ∈ split_points (app (step len w ev)) ↔
            x ∈ split_points (app w) ∨ added = Some x) ∧
      timestamp_tree (app (step len w ev)) =
        match added with
        | None => timestamp_tree (app w)
        | Some _ => display <$> derive_segments d (split_points (app (step len w ev)))
        end.
Proof.
  destruct ev as [entry|i res| |ev|entry]; try done; intros _.
  - (* a click *)
    destruct (negb (inaxes ev) || bool_decide (d = 0)) eqn:Hguard.
    + exists None. split; [done|]. intros w Hd. simpl. unfold on_waveform_click.
      rewrite Hd, Hguard. intuition congruence.
    + exists (Some (clamp d (click_ms ev))). split.
      { intros x [= <-] Hd0. by apply clamp_range. }
      intros w Hd. simpl. unfold on_waveform_click. rewrite Hd, Hguard. simpl.
      split; [done|]. split; [|by rewrite Hd].
      intros x. rewrite elem_of_app, list_elem_of_singleton. intuition congruence.
  - (* the entry button *)
    destruct (decide (d = 0)) as [Hd0|Hd0].
    + exists None. split; [done|]. intros w Hd. simpl.
      unfold add_manual_split_from_entry. rewrite decide_True by congruence.
      intuition congruence.
    + destruct (parse_entry (Text.strip entry)) as [ms0|] eqn:Hparse.
      * exists (Some (clamp d ms0)). split.
        { intros x [= <-] Hd'. by apply clamp_range. }
        intros w Hd. simpl. unfold add_manual_split_from_entry.
        rewrite decide_False by congruence. rewrite Hparse, Hd.
        destruct (decide (clamp d ms0 ∈ split_points (app w))) as [Hin|Hin]; simpl.
        -- split; [done|]. split; [|by rewrite Hd]. intuition congruence.
        -- split; [done|]. split; [|by rewrite Hd].
           intros x. rewrite elem_of_app, list_elem_of_singleton. intuition congruence.
      * exists None. split; [done|]. intros w Hd. simpl.
        unfold add_manual_split_from_entry.
        rewrite decide_False by congruence. rewrite Hparse. intuition congruence.
Qed.

End EditFacts.

(** X10.  Two edits of the split points, each a click on the waveform or a
    press of the entry button, leave the same segment panel in either
    order. *)
Theorem edits_commute_on_panel {AudioSegment : Type} (len : AudioSegment → Z)
    (w : World) (e1 e2 : @event AudioSegment) :
  auto_split_event e1 = false → auto_split_event e2 = false →
  timestamp_tree (app (run len w [e1; e2])) = timestamp_tree (app (run len w [e2; e1])).
Proof.
  intros H1 H2. unfold run. cbn [foldl].
  set (d := audio_duration_ms (app w)).
  destruct (edit_effect len e1 d H1) as (add1 & _ & E1).
  destruct (edit_effect len e2 d H2) as (add2 & _ & E2).
  destruct (E1 w eq_refl) as (Hd1 & Hp1 & Ht1).
  destruct (E2 w eq_refl) as (Hd2 & Hp2 & Ht2).
  destruct (E2 (step len w e1) Hd1) as (_ & Hp12 & Ht12).
  destruct (E1 (step len w e2) Hd2) as (_ & Hp21 & Ht21).
  rewrite Ht12, Ht21.
  destruct add1 as [p1|], add2 as [p2|].
  - f_equal. apply derive_segments_ext_points. intros x.
    rewrite Hp12, Hp21, Hp1, Hp2. tauto.
  - rewrite Ht1. f_equal. apply derive_segments_ext_points. intros x.
    rewrite Hp21, Hp1, Hp2. intuition congruence.
  - rewrite Ht2. f_equal. apply derive_segments_ext_points. intros x.
    rewrite Hp12, Hp1, Hp2. intuition congruence.
  - by rewrite Ht1, Ht2.
Qed.

Lemma edits_commute_on_panel_witness :
  let w := mkWorld (mkApp "a.mp3" (Some "a.mp3") 10000 [] [] ("", info)) [] [] in
  timestamp_tree (app (run id w [WaveformClick (Click true 7300); SplitButton "00:02"])) =
  timestamp_tree (app (run id w [SplitButton "00:02"; WaveformClick (Click true 7300)])).
Proof.
  exact (edits_commute_on_panel id
           (mkWorld (mkApp "a.mp3" (Some "a.mp3") 10000 [] [] ("", info)) [] [])
           (WaveformClick (Click true 7300)) (SplitButton "00:02") eq_refl eq_refl).
Defined.

(** ** Export of any displayed panel *)

Lemma export_loop_displayed segs :
  export_loop (display <$> segs) =
    (export_of <$> segs, (track_name ∘ ordinal) <$> segs, Returned).
Proof.
  induction segs as [|s segs IH]; [done|].
  rewrite fmap_cons. cbn [export_loop display start_text end_text track].
  rewrite !mmss_to_ms_ms_to_mmss_all. by rewrite IH.
Qed.

Lemma download_displayed a answer segs :
  timestamp_tree a = display <$> segs → segs ≠ [] →
  has_audio a = true → answer ≠ "" →
  download_segments_zip answer Decoded a =
    (update_status
       ("Exported " +:+ Text.decimal (N.of_nat (length segs)) +:+ " segments to ZIP")
       success a,
     [asksaveasfilename; from_mp3 (default "" (current_audio_path a)); mkdtemp]
       ++ (export_of <$> segs) ++ [zip_open answer]
       ++ (zip_write <$> ((track_name ∘ ordinal) <$> segs))
       ++ [rmtree; showinfo "Success"
             ("Exported " +:+ Text.decimal (N.of_nat (length segs))
                +:+ " segments to ZIP:" +:+ String "010" answer)],
     Returned).
Proof.
  intros Htree Hne Haudio Hanswer. unfold download_segments_zip.
  rewrite Htree, Haudio.
  rewrite bool_decide_eq_false_2 by (destruct segs; done).
  cbn [orb negb]. rewrite decide_False by done.
  rewrite export_loop_displayed, length_fmap.
  by rewrite <- !app_assoc.
Qed.






(** The state a failed load leaves, with the rows of the file before:
    export stops at [from_mp3]. *)
Example export_after_failed_load :
  let a := mkApp "b.mp3" (Some "b.mp3") 0 []
             [Row 1 "00:00" "00:04"; Row 2 "00:04" "00:10"] ("Error", error) in
  download_segments_zip "out.zip" (DecodeRaised "cannot decode") a =
    (a, [asksaveasfilename; from_mp3 "b.mp3"], DecodeError "cannot decode").
Proof. reflexivity. Qed.

(** ** Export of the panel derived from the stored points *)

Lemma boundary_points_pair d : 0 < d → boundary_points d [] = [0; d].
Proof.
  intros Hd. apply boundary_points_unique.
  - repeat constructor. lia.
  - apply NoDup_cons. split; [|apply NoDup_singleton].
    rewrite list_elem_of_singleton. lia.
  - intros x. rewrite !elem_of_cons, elem_of_nil. intuition lia.
Qed.

(** The chain of derived segments: from 0 to the duration without a gap. *)
Lemma derive_segments_chain d ps :
  0 < d →
  start_ms <$> head (derive_segments d ps) = Some 0 ∧
  end_ms <$> last (derive_segments d ps) = Some d ∧
  ∀ i s t, derive_segments d ps !! i = Some s → derive_segments d ps !! S i = Some t →
           end_ms s = start_ms t.
Proof.
  intros Hd. unfold derive_segments.
  set (l := boundary_points d ps).
  pose proof (boundary_points_length d ps Hd) as Hlen. fold l in Hlen.
  split; [|split].
  - rewrite head_lookup, consecutive_lookup by lia. simpl. f_equal.
    assert (0 ≤ d) as Hd0 by lia.
    pose proof (boundary_points_head d ps Hd0) as Hh.
    fold l in Hh. rewrite head_lookup in Hh. by apply list_lookup_total_correct.
  - rewrite last_lookup, length_consecutive, consecutive_lookup by lia. simpl. f_equal.
    pose proof (boundary_points_last d ps Hd) as Hl.
    fold l in Hl. rewrite last_lookup in Hl.
    apply list_lookup_total_correct. rewrite <- Hl. f_equal. lia.
  - intros i s t [_ ->]%consecutive_lookup_Some [_ ->]%consecutive_lookup_Some. done.
Qed.

(** X12.  What an export of the panel derived from the stored points
    covers: the slices start at 0, each starts where the one before ends,
    none runs backwards, and the last one ends at the duration rounded down
    to a whole second, so that the final fraction of a second of the file is
    in no exported track; a slice is empty when its two boundaries fall in
    the same second. *)
Theorem manual_export_coverage (a : App) (answer : string) :
  0 < audio_duration_ms a → has_audio a = true → answer ≠ "" →
  let sl :=
    slices (download_segments_zip answer Decoded (update_manual_split_segments a)).1.2 in
  fst <$> head sl = Some 0 ∧
  snd <$> last sl = Some (audio_duration_ms a / 1000 * 1000) ∧
  (∀ i x y, sl !! i = Some x → sl !! S i = Some y → x.2 = y.1) ∧
  (∀ x, x ∈ sl → x.1 ≤ x.2) ∧
  length sl = length (derive_segments (audio_duration_ms a) (split_points a)).
Proof.
  intros Hd Haudio Hanswer sl.
  set (segs := derive_segments (audio_duration_ms a) (split_points a)).
  set (f := λ s : segment, (start_ms s / 1000 * 1000, end_ms s / 1000 * 1000)).
  assert (segs ≠ []) as Hne.
  { intros Hnil. apply (f_equal length) in Hnil. subst segs.
    unfold derive_segments in Hnil. rewrite length_consecutive in Hnil.
    pose proof (boundary_points_length _ (split_points a) Hd). simpl in Hnil. lia. }
  assert (sl = f <$> segs) as ->.
  { subst sl.
    rewrite (download_displayed (update_manual_split_segments a) answer segs) by done.
    cbn [fst snd].
    rewrite !slices_app, slices_export_of, slices_zip_write. simpl.
    by rewrite app_nil_r. }
  destruct (derive_segments_chain _ (split_points a) Hd) as (Hhead & Hlast & Hadj).
  fold segs in Hhead, Hlast, Hadj.
  split; [|split; [|split; [|split]]].
  - destruct segs as [|s0 segs']; [done|]. simpl in *.
    injection Hhead as ->. done.
  - rewrite fmap_last. destruct (last segs) as [s|]; [|done].
    simpl in *. injection Hlast as ->. done.
  - intros i x y. rewrite !list_lookup_fmap.
    destruct (segs !! i) as [s|] eqn:Hs; [|done].
    destruct (segs !! S i) as [t|] eqn:Ht; [|done].
    intros [= <-] [= <-]. simpl. by rewrite (Hadj i s t).
  - intros x (s & -> & Hs)%list_elem_of_fmap. simpl.
    pose proof (derive_segments_increasing _ _ s Hs).
    pose proof (Z.div_le_mono (start_ms s) (end_ms s) 1000). lia.
  - by rewrite length_fmap.
Qed.

Lemma manual_export_coverage_witness :
  let a := mkApp "a.mp3" (Some "a.mp3") 10999 [2500; 2900] [] ("", info) in
  let sl :=
    slices (download_segments_zip "out.zip" Decoded (update_manual_split_segments a)).1.2 in
  fst <$> head sl = Some 0 ∧
  snd <$> last sl = Some (audio_duration_ms a / 1000 * 1000) ∧
  (∀ i x y, sl !! i = Some x → sl !! S i = Some y → x.2 = y.1) ∧
  (∀ x, x ∈ sl → x.1 ≤ x.2) ∧
  length sl = length (derive_segments (audio_duration_ms a) (split_points a)).
Proof.
  exact (manual_export_coverage
           (mkApp "a.mp3" (Some "a.mp3") 10999 [2500; 2900] [] ("", info)) "out.zip"
           ltac:(simpl; lia) eq_refl ltac:(discriminate)).
Defined.

(** In that export the points 2500 and 2900 bound an empty slice, and the
    file is cut off at 10000 ms. *)
Example manual_export_coverage_sample :
  let a := mkApp "a.mp3" (Some "a.mp3") 10999 [2500; 2900] [] ("", info) in
  slices (download_segments_zip "out.zip" Decoded (update_manual_split_segments a)).1.2 =
    [(0, 2000); (2000, 2000); (2000, 10000)].
Proof. vm_compute. done. Qed.

(** ** What every session keeps *)

Section SessionFacts.
Context {AudioSegment : Type} (len : AudioSegment → Z) (basename : string → string).

Lemma well_formed_init : well_formed init.
Proof. split; [done|]. split; [constructor|]. by exists []. Qed.

Lemma well_formed_update_status m k a : well_formed a → well_formed (update_status m k a).
Proof. done. Qed.

Lemma well_formed_set_timestamp_tree segs a :
  well_formed a → well_formed (set_timestamp_tree (display <$> segs) a).
Proof. intros (Hd & Hps & _). split; [done|]. split; [done|]. by exists segs. Qed.

Lemma well_formed_update_manual_split_segments a :
  well_formed a → well_formed (update_manual_split_segments a).
Proof. apply well_formed_set_timestamp_tree. Qed.

Lemma well_formed_add_point p a :
  well_formed a → 0 ≤ p ≤ audio_duration_ms a →
  well_formed (set_split_points (split_points a ++ [p]) a).
Proof.
  intros (Hd & Hps & Htree) Hp. split; [done|]. split; [|done].
  simpl. apply Forall_app. split; [done|]. by constructor.
Qed.

Lemma well_formed_no_points a : well_formed a → well_formed (set_split_points [] a).
Proof. intros (Hd & _ & Htree). split; [done|]. split; [constructor|done]. Qed.

Lemma well_formed_on_waveform_click ev a :
  well_formed a → well_formed (on_waveform_click ev a).
Proof.
  intros Hwf. unfold on_waveform_click.
  destruct (negb (inaxes ev) || _); [done|].
  apply well_formed_update_manual_split_segments, well_formed_add_point; [done|].
  apply clamp_range, Hwf.
Qed.

Lemma well_formed_add_manual_split_from_entry entry a :
  well_formed a → well_formed (add_manual_split_from_entry entry a).
Proof.
  intros Hwf. unfold add_manual_split_from_entry.
  case_decide; [done|]. destruct (parse_entry _) as [ms0|]; [|done].
  apply well_formed_update_status, well_formed_update_manual_split_segments.
  case_decide; [done|]. apply well_formed_add_point; [done|].
  apply clamp_range, Hwf.
Qed.

Lemma well_formed_reset_split_segments_panel a :
  well_formed a → well_formed (reset_split_segments_panel a).
Proof.
  intros Hwf. unfold reset_split_segments_panel. case_decide.
  - by apply (well_formed_set_timestamp_tree []).
  - by apply (well_formed_set_timestamp_tree [Segment 1 0 (audio_duration_ms a)]).
Qed.

Lemma well_formed_auto_split_on_param_change entry a :
  well_formed a → well_formed (auto_split_on_param_change entry a).1.
Proof.
  intros Hwf. unfold auto_split_on_param_change. case_decide; [done|].
  destruct (parse_entry _); [|done]. by apply (well_formed_set_timestamp_tree []).
Qed.

Lemma well_formed_run_auto_split_task res a :
  well_formed a → well_formed (run_auto_split_task len res a).1.
Proof. intros Hwf. by destruct res as [e|[|c chunks]]. Qed.

Lemma well_formed_update_tree ts a : well_formed a → well_formed (update_tree ts a).
Proof.
  intros (Hd & Hps & segs & Htree). split; [done|]. split; [done|].
  exists (segs ++ ts). simpl. by rewrite Htree, fmap_app.
Qed.

Lemma well_formed_plot_waveform res a : well_formed a → well_formed (plot_waveform res a).
Proof.
  intros (_ & _ & Htree). destruct res as [e|d]; simpl.
  - split; [done|]. split; [constructor|done].
  - split; [simpl; lia|]. split; [constructor|done].
Qed.

Lemma well_formed_select_source_file answer res entry a :
  well_formed a → well_formed (select_source_file basename answer res entry a).1.
Proof.
  intros Hwf. unfold select_source_file. case_decide; [done|].
  apply well_formed_auto_split_on_param_change.
  by apply (well_formed_plot_waveform res
              (update_status _ success (set_source_file_path answer a))).
Qed.

Lemma well_formed_download_segments_zip answer decoded a :
  well_formed a → well_formed (download_segments_zip answer decoded a).1.1.
Proof.
  intros Hwf. unfold download_segments_zip.
  destruct (bool_decide _ || negb _); [done|]. case_decide; [done|].
  destruct decoded as [|e]; [|done].
  destruct (export_loop (timestamp_tree a)) as [[effs paths] [| |e]]; done.
Qed.

Lemma well_formed_step w ev : well_formed (app w) → well_formed (app (step len w ev)).
Proof.
  intros Hwf. destruct ev as [entry|i res| |ev|entry]; simpl.
  - pose proof (well_formed_auto_split_on_param_change entry (app w) Hwf) as H.
    by destruct (auto_split_on_param_change entry (app w)).
  - destruct (running w !! i); [|done].
    pose proof (well_formed_run_auto_split_task res (app w) Hwf) as H.
    by destruct (run_auto_split_task len res (app w)).
  - destruct (scheduled w); [done|]. by apply well_formed_update_tree.
  - by apply well_formed_on_waveform_click.
  - by apply well_formed_add_manual_split_from_entry.
Qed.

Lemma well_formed_exec w c : well_formed (app w) → well_formed (app (exec len basename w c)).
Proof.
  intros Hwf. destruct c as [ev|answer res entry| | | |answer decoded]; simpl.
  - by apply well_formed_step.
  - pose proof (well_formed_select_source_file answer res entry (app w) Hwf) as H.
    by destruct (select_source_file basename answer res entry (app w)).
  - by apply well_formed_update_status, well_formed_update_manual_split_segments.
  - by apply well_formed_update_status, well_formed_reset_split_segments_panel,
      well_formed_no_points.
  - by apply well_formed_update_status, well_formed_reset_split_segments_panel,
      well_formed_no_points.
  - by apply well_formed_download_segments_zip.
Qed.

Lemma well_formed_session cs : well_formed (app (session len basename cs)).
Proof.
  unfold session. induction cs as [|c cs IH] using rev_ind; [apply well_formed_init|].
  rewrite foldl_app. simpl. by apply well_formed_exec.
Qed.



End SessionFacts.

(** X13.  In every state a session can reach, by file selections that load
    or fail, clicks, entries, parameter changes, ends of worker threads,
    scheduled panel updates, refreshes and exports in any order, the
    duration is not negative and every stored split point lies in the
    file. *)
Theorem session_points_in_file {AudioSegment : Type} (len : AudioSegment → Z)
    (basename : string → string) (cs : list command) :
  let a := app (session len basename cs) in
  0 ≤ audio_duration_ms a ∧
  ∀ p, p ∈ split_points a → 0 ≤ p ≤ audio_duration_ms a.
Proof.
  destruct (well_formed_session len basename cs) as (Hd & Hps & _).
  split; [done|]. by apply Forall_forall.
Qed.


(** ** Track names *)







(** ** What export leaves alone *)

Lemma export_loop_only_exports rows e :
  e ∈ (export_loop rows).1.1 → ∃ name s t, e = export name s t.
Proof.
  induction rows as [|r rows IH]; simpl; [by intros ?%elem_of_nil|].
  destruct (mmss_to_ms (start_text r)) as [x|]; [|by intros ?%elem_of_nil].
  destruct (mmss_to_ms (end_text r)) as [y|]; [|by intros ?%elem_of_nil].
  destruct (export_loop rows) as [[effs paths] o]. simpl in *.
  intros [->|Hin]%elem_of_cons; eauto.
Qed.

(** X16.  Export never changes the split state: paths, duration, stored
    points and panel are as before, however it ends.  It touches the file
    system only when the panel is not empty, audio is loaded, a ZIP name was
    chosen and [from_mp3] decoded the file.  And when it stops with
    [ValueError], the status is as before too, the archive has not been
    opened, and the temporary directory it made is not removed. *)
Theorem export_frame (a : App) (answer : string) (decoded : decode_result) :
  let a' := (download_segments_zip answer decoded a).1.1 in
  let effs := (download_segments_zip answer decoded a).1.2 in
  source_file_path a' = source_file_path a ∧
  current_audio_path a' = current_audio_path a ∧
  audio_duration_ms a' = audio_duration_ms a ∧
  split_points a' = split_points a ∧
  timestamp_tree a' = timestamp_tree a ∧
  (∀ e, e ∈ effs → writes e = true →
        timestamp_tree a ≠ [] ∧ has_audio a = true ∧ answer ≠ "" ∧ decoded = Decoded) ∧
  ((download_segments_zip answer decoded a).2 = ValueError →
     a' = a ∧ mkdtemp ∈ effs ∧ (rmtree ∉ effs) ∧ ∀ path, zip_open path ∉ effs).
Proof.
  unfold download_segments_zip.
  destruct (bool_decide (timestamp_tree a = [])) eqn:Htree; cbn [orb].
  { split_and!; try done. intros e0 [->|[]%elem_of_nil]%elem_of_cons. done. }
  destruct (has_audio a) eqn:Haudio; cbn [negb].
  2:{ split_and!; try done. intros e0 [->|[]%elem_of_nil]%elem_of_cons. done. }
  apply bool_decide_eq_false in Htree.
  case_decide as Hanswer.
  { split_and!; try done. intros e0 [->|[]%elem_of_nil]%elem_of_cons. done. }
  destruct decoded as [|err].
  2:{ split_and!; try done.
      intros e0 [->|[->|[]%elem_of_nil]%elem_of_cons]%elem_of_cons; done. }
  pose proof (export_loop_only_exports (timestamp_tree a)) as Honly.
  destruct (export_loop (timestamp_tree a)) as [[effs paths] [| |err]]; cbn [fst snd] in *.
  - split_and!; done.
  - split_and!; try done. intros _. split_and!; [done| | |].
    + apply elem_of_app. left. apply elem_of_cons. right.
      apply elem_of_cons. right. by left.
    + rewrite elem_of_app, !elem_of_cons, elem_of_nil.
      intros [[?|[?|[?|[]]]]|(n & x & y & ?)%Honly]; done.
    + intros path. rewrite elem_of_app, !elem_of_cons, elem_of_nil.
      intros [[?|[?|[?|[]]]]|(n & x & y & ?)%Honly]; done.
  - split_and!; done.
Qed.

(** ** Time stamps within the total *)

Section TotalFacts.
Context {AudioSegment : Type} (len : AudioSegment → Z).

Lemma total_len_app l1 l2 : total_len len (l1 ++ l2) = total_len len l1 + total_len len l2.
Proof. unfold total_len. induction l1 as [|x l1 IH]; simpl; lia. Qed.

Lemma total_len_nonneg l : Forall (λ c, 0 ≤ len c) l → 0 ≤ total_len len l.
Proof. unfold total_len. induction 1; simpl; lia. Qed.

Lemma timestamps_lookup_Some chunks i t :
  timestamps len chunks !! i = Some t →
  ∃ c, chunks !! i = Some c ∧
       t = Segment (Z.of_nat i + 1) (total_len len (take i chunks))
             (total_len len (take i chunks) + len c).
Proof.
  intros Ht. pose proof (lookup_lt_Some _ _ _ Ht) as Hlt.
  rewrite length_timestamps in Hlt.
  destruct (lookup_lt_is_Some_2 chunks i Hlt) as [c Hc]. exists c. split; [done|].
  rewrite (timestamps_lookup len chunks i c Hc) in Ht. congruence.
Qed.

End TotalFacts.

(** X17.  When no chunk has a negative length, every reported time stamp
    lies between 0 and the sum of all chunk lengths and does not run
    backwards, and the last one ends exactly at that sum: the time stamps
    count the time of the chunks, whatever silence the engine dropped
    between them. *)
Theorem timestamps_within_total {AudioSegment : Type} (len : AudioSegment → Z)
    (chunks : list AudioSegment) :
  Forall (λ c, 0 ≤ len c) chunks →
  (∀ t, t ∈ timestamps len chunks →
        0 ≤ start_ms t ∧ start_ms t ≤ end_ms t ∧ end_ms t ≤ total_len len chunks) ∧
  (chunks ≠ [] → end_ms <$> last (timestamps len chunks) = Some (total_len len chunks)).
Proof.
  intros Hpos. split.
  - intros t (i & Hi)%list_elem_of_lookup.
    apply timestamps_lookup_Some in Hi as (c & Hc & ->). simpl.
    pose proof (take_drop_middle chunks i c Hc) as Hsplit.
    rewrite <- Hsplit in Hpos.
    apply Forall_app in Hpos as [Hbefore Hrest].
    apply Forall_cons in Hrest as [Hc0 Hafter].
    pose proof (total_len_nonneg len _ Hbefore).
    pose proof (total_len_nonneg len _ Hafter).
    assert (total_len len chunks =
            total_len len (take i chunks) + (len c + total_len len (drop (S i) chunks))) as ->.
    { rewrite <- Hsplit at 1. by rewrite total_len_app. }
    lia.
  - intros Hne. destruct chunks as [|c chunks _] using rev_ind; [done|].
    by rewrite timestamps_snoc, last_snoc, total_len_snoc.
Qed.

Lemma timestamps_within_total_witness :
  (∀ t, t ∈ timestamps id [4200; 0; 5800] →
        0 ≤ start_ms t ∧ start_ms t ≤ end_ms t ∧ end_ms t ≤ total_len id [4200; 0; 5800]) ∧
  ([4200; 0; 5800] ≠ [] →
   end_ms <$> last (timestamps id [4200; 0; 5800]) = Some (total_len id [4200; 0; 5800])).
Proof.
  apply (timestamps_within_total id [4200; 0; 5800]).
  repeat constructor; simpl; lia.
Defined.

(** ** Resetting and loading *)

Lemma derive_segments_no_points d :
  0 ≤ d →
  display <$> derive_segments d [] =
    if decide (d = 0) then [] else [Row 1 (ms_to_mmss 0) (ms_to_mmss d)].
Proof.
  intros Hd. unfold derive_segments. case_decide as Hz.
  - subst d. by rewrite boundary_points_no_audio.
  - by rewrite boundary_points_pair by lia.
Qed.

(** X18.  Both refresh buttons leave no stored point, and the panel they
    leave is the one derived from no point at all: empty without audio,
    otherwise the single segment from 0 to the duration. *)
Theorem refresh_is_derive_from_no_points (a : App) :
  0 ≤ audio_duration_ms a →
  split_points (refresh_split_parameters a) = [] ∧
  split_points (refresh_split_lines a) = [] ∧
  timestamp_tree (refresh_split_parameters a) =
    timestamp_tree (update_manual_split_segments (set_split_points [] a)) ∧
  timestamp_tree (refresh_split_lines a) =
    timestamp_tree (update_manual_split_segments (set_split_points [] a)) ∧
  (0 < audio_duration_ms a →
   timestamp_tree (refresh_split_parameters a) =
     [Row 1 "00:00" (ms_to_mmss (audio_duration_ms a))]).
Proof.
  intros Hd.
  assert (timestamp_tree (update_manual_split_segments (set_split_points [] a)) =
          if decide (audio_duration_ms a = 0) then []
          else [Row 1 (ms_to_mmss 0) (ms_to_mmss (audio_duration_ms a))]) as ->.
  { unfold update_manual_split_segments. simpl. by apply derive_segments_no_points. }
  split_and!; try done.
  intros Hpos. unfold refresh_split_parameters, reset_split_segments_panel. simpl.
  by rewrite decide_False by lia.
Qed.

Lemma refresh_is_derive_from_no_points_witness :
  let a := mkApp "a.mp3" (Some "a.mp3") 61999 [2500; 2900]
             [Row 1 "00:00" "00:02"; Row 2 "00:02" "01:01"] ("", info) in
  split_points (refresh_split_parameters a) = [] ∧
  split_points (refresh_split_lines a) = [] ∧
  timestamp_tree (refresh_split_parameters a) =
    timestamp_tree (update_manual_split_segments (set_split_points [] a)) ∧
  timestamp_tree (refresh_split_lines a) =
    timestamp_tree (update_manual_split_segments (set_split_points [] a)) ∧
  (0 < audio_duration_ms a →
   timestamp_tree (refresh_split_parameters a) =
     [Row 1 "00:00" (ms_to_mmss (audio_duration_ms a))]).
Proof.
  exact (refresh_is_derive_from_no_points
           (mkApp "a.mp3" (Some "a.mp3") 61999 [2500; 2900]
              [Row 1 "00:00" "00:02"; Row 2 "00:02" "01:01"] ("", info))
           ltac:(simpl; lia)).
Defined.

(** X19.  Choosing a file in the open dialog makes it the source and the
    current audio, drops every stored point, and sets the duration to the
    length of the file, or to 0 when loading fails.  If the entry text is a
    valid time, the panel is emptied and one thread is started for that file
    with that minimum silence; if it is not, no thread is started, an error
    is shown, and the panel keeps the rows it had. *)
Theorem select_source_file_effect (basename : string → string)
    (answer : string) (res : load_result) (entry : string) (a : App) :
  answer ≠ "" →
  let r := select_source_file basename answer res entry a in
  source_file_path r.1 = answer ∧
  current_audio_path r.1 = Some answer ∧
  split_points r.1 = [] ∧
  audio_duration_ms r.1 =
    match res with Loaded d => Z.of_N d | LoadFailed _ => 0 end ∧
  match parse_entry (Text.strip entry) with
  | Some min_silence_len =>
      r.2 = Some (answer, min_silence_len) ∧ timestamp_tree r.1 = []
  | None =>
      r.2 = None ∧ timestamp_tree r.1 = timestamp_tree a ∧ (status r.1).2 = error
  end.
Proof.
  intros Hanswer r. subst r. unfold select_source_file, auto_split_on_param_change.
  rewrite decide_False by done.
  assert (∀ x, source_file_path (set_current_audio_path (Some answer)
            (plot_waveform res (update_status x success (set_source_file_path answer a))))
          = answer) as Hsrc by (by destruct res).
  rewrite Hsrc, decide_False by done.
  destruct (parse_entry (Text.strip entry)); by destruct res.
Qed.

Lemma select_source_file_effect_witness :
  let a := mkApp "a.mp3" (Some "a.mp3") 10000 [2500]
             [Row 1 "00:00" "00:02"; Row 2 "00:02" "00:10"] ("", info) in
  let r := select_source_file id "b.mp3" (LoadFailed "no ffmpeg") "1:2:3" a in
  source_file_path r.1 = "b.mp3" ∧
  current_audio_path r.1 = Some "b.mp3" ∧
  split_points r.1 = [] ∧
  audio_duration_ms r.1 = 0 ∧
  match parse_entry (Text.strip "1:2:3") with
  | Some min_silence_len =>
      r.2 = Some ("b.mp3", min_silence_len) ∧ timestamp_tree r.1 = []
  | None =>
      r.2 = None ∧ timestamp_tree r.1 = timestamp_tree a ∧ (status r.1).2 = error
  end.
Proof.
  exact (select_source_file_effect id "b.mp3" (LoadFailed "no ffmpeg") "1:2:3"
           (mkApp "a.mp3" (Some "a.mp3") 10000 [2500]
              [Row 1 "00:00" "00:02"; Row 2 "00:02" "00:10"] ("", info))
           ltac:(discriminate)).
Defined.

(** ** The paused flag and the mixer *)

Lemma transport_exec_flag st c :
  (st.1 = true ↔ last st.2 = Some music_pause) →
  ((transport_exec st c).1 = true ↔ last (transport_exec st c).2 = Some music_pause).
Proof.
  destruct st as [p calls]. simpl. intros Hinv.
  destruct c as [failure a|busy a|a|]; simpl.
  - unfold play_audio. destruct (has_audio a); [|by rewrite app_nil_r].
    destruct p; simpl.
    + destruct failure as [|[|k] e]; simpl;
        [rewrite last_snoc; split; [done|]; by intros [=]
        |by rewrite app_nil_r
        |rewrite last_snoc; split; [done|]; by intros [=]].
    + destruct failure as [|[|[|k]] e]; simpl;
        [rewrite last_app_cons; simpl; split; [done|]; by intros [=]
        |by rewrite app_nil_r
        |rewrite last_snoc; split; [done|]; by intros [=]
        |rewrite last_app_cons; simpl; split; [done|]; by intros [=]].
  - unfold pause_audio. destruct busy; simpl; [by rewrite last_snoc|].
    destruct p; simpl; [|by rewrite app_nil_r].
    rewrite last_snoc. split; [done|]. by intros [=].
  - rewrite last_snoc. split; [done|]. by intros [=].
  - rewrite last_snoc. split; [done|]. by intros [=].
Qed.

Lemma transport_flag cs :
  (transport cs).1 = true ↔ last (transport cs).2 = Some music_pause.
Proof.
  unfold transport. induction cs as [|c cs IH] using rev_ind; [done|].
  rewrite foldl_app. simpl. by apply transport_exec_flag.
Qed.

(** X20.  Through any sequence of Play, Pause, Stop and Refresh, whatever
    [get_busy] answers, whichever mixer call of a Play raises and however
    the rest of the state changes in between, the flag [is_paused] is set
    exactly when the last call the mixer accepted was a pause.  So with
    audio loaded a Play in which no call raises resumes, with [unpause()]
    alone, exactly when the music was last paused, and loads and plays the
    current file otherwise.  A Play whose first call raises gets no call
    through and leaves the flag as it was; it shows the Playback Error box
    and an error status; when [load] goes through and [play()] raises, only
    the load is done. *)
Theorem is_paused_tracks_mixer (cs : list transport_command) (a : App) :
  ((transport cs).1 = true ↔ last (transport cs).2 = Some music_pause) ∧
  (has_audio a = true → last (transport cs).2 = Some music_pause →
   (play_audio NoFailure a (transport cs).1).1.2 = [music_unpause]) ∧
  (has_audio a = true → last (transport cs).2 ≠ Some music_pause →
   (play_audio NoFailure a (transport cs).1).1.2 =
     [music_load (default "" (current_audio_path a)); music_play]) ∧
  (has_audio a = true → ∀ e,
   play_audio (FailsAt 0 e) a (transport cs).1 =
     (update_status ("Playback error: " +:+ e) error a, (transport cs).1, [],
      [showerror "Playback Error" ("Could not play audio:" +:+ String "010" e)])) ∧
  (has_audio a = true → last (transport cs).2 ≠ Some music_pause → ∀ e,
   play_audio (FailsAt 1 e) a (transport cs).1 =
     (update_status ("Playback error: " +:+ e) error a, false,
      [music_load (default "" (current_audio_path a))],
      [showerror "Playback Error" ("Could not play audio:" +:+ String "010" e)])).
Proof.
  pose proof (transport_flag cs) as Hinv.
  split; [done|]. split_and!.
  - intros Haudio Hlast. unfold play_audio. rewrite Haudio.
    apply Hinv in Hlast. by rewrite Hlast.
  - intros Haudio Hlast. unfold play_audio. rewrite Haudio.
    destruct (transport cs).1; [|done]. destruct Hlast. by apply Hinv.
  - intros Haudio e. unfold play_audio. rewrite Haudio.
    by destruct (transport cs).1.
  - intros Haudio Hlast e. unfold play_audio. rewrite Haudio.
    destruct (transport cs).1; [|done]. destruct Hlast. by apply Hinv.
Qed.

(** Paused last: Play on a newly chosen file resumes and does not load it;
    and a Play whose [load] raises leaves the mixer and the flag alone. *)
Example is_paused_sample :
  let a0 := mkApp "a.mp3" (Some "a.mp3") 5000 [] [] ("", info) in
  let b := mkApp "b.mp3" (Some "b.mp3") 0 [] [] ("", info) in
  transport [Play NoFailure a0; Pause true a0; Pause false a0; Stop a0;
             Play (FailsAt 0 "bad file") b; Play (FailsAt 1 "no device") a0;
             Play NoFailure a0; Pause true a0; Play (FailsAt 0 "no device") a0] =
    (true, [music_load "a.mp3"; music_play; music_pause; music_unpause; music_stop;
            music_load "a.mp3"; music_load "a.mp3"; music_play; music_pause]) ∧
  (play_audio NoFailure b true).1.2 = [music_unpause] ∧
  play_audio (FailsAt 0 "bad file") b false =
    (update_status "Playback error: bad file" error b, false, [],
     [showerror "Playback Error" ("Could not play audio:" +:+ String "010" "bad file")]).
Proof. vm_compute. done. Qed.

(** ** Points outside the file *)

Lemma derive_segments_snoc_edge d ps p :
  p ≤ 0 ∨ d ≤ p → derive_segments d (ps ++ [p]) = derive_segments d ps.
Proof.
  intros Hp. unfold derive_segments. f_equal. apply boundary_points_interior.
  intros x Hx. rewrite elem_of_app, list_elem_of_singleton.
  split; [intros [? | ->]; [done|lia]|auto].
Qed.

(** X21.  A click or an entry outside the file, before 0 or past the
    duration, is clamped to the nearer end and adds no segment: the point is
    stored, at 0 or at the duration, but the derived segments and the panel
    are those of the points stored before. *)
Theorem point_outside_file_adds_no_segment (a : App) (ev : click)
    (entry : string) (ms0 : Z) :
  0 < audio_duration_ms a →
  let d := audio_duration_ms a in
  (inaxes ev = true → click_ms ev ≤ 0 ∨ d ≤ click_ms ev →
   split_points (on_waveform_click ev a) = split_points a ++ [clamp d (click_ms ev)] ∧
   (clamp d (click_ms ev) = 0 ∨ clamp d (click_ms ev) = d) ∧
   timestamp_tree (on_waveform_click ev a) =
     display <$> derive_segments d (split_points a)) ∧
  (parse_entry (Text.strip entry) = Some ms0 → ms0 ≤ 0 ∨ d ≤ ms0 →
   (clamp d ms0 = 0 ∨ clamp d ms0 = d) ∧
   timestamp_tree (add_manual_split_from_entry entry a) =
     display <$> derive_segments d (split_points a)).
Proof.
  intros Hd d. split.
  - intros Hin Hout. unfold on_waveform_click. rewrite Hin.
    rewrite bool_decide_eq_false_2 by lia. simpl. fold d.
    split; [done|]. split; [unfold clamp; lia|].
    rewrite derive_segments_snoc_edge; [done|]. unfold clamp. lia.
  - intros Hparse Hout. split; [unfold clamp; lia|].
    unfold add_manual_split_from_entry.
    rewrite decide_False by lia. rewrite Hparse. fold d.
    case_decide; simpl; [done|]. fold d.
    rewrite derive_segments_snoc_edge; [done|]. unfold clamp. lia.
Qed.

Lemma point_outside_file_adds_no_segment_witness :
  let a := mkApp "a.mp3" (Some "a.mp3") 60000 [2500] [] ("", info) in
  let d := audio_duration_ms a in
  (inaxes (Click true (-50)) = true →
   click_ms (Click true (-50)) ≤ 0 ∨ d ≤ click_ms (Click true (-50)) →
   split_points (on_waveform_click (Click true (-50)) a) =
     split_points a ++ [clamp d (click_ms (Click true (-50)))] ∧
   (clamp d (click_ms (Click true (-50))) = 0 ∨ clamp d (click_ms (Click true (-50))) = d) ∧
   timestamp_tree (on_waveform_click (Click true (-50)) a) =
     display <$> derive_segments d (split_points a)) ∧
  (parse_entry (Text.strip "01:01") = Some 61000 → 61000 ≤ 0 ∨ d ≤ 61000 →
   (clamp d 61000 = 0 ∨ clamp d 61000 = d) ∧
   timestamp_tree (add_manual_split_from_entry "01:01" a) =
     display <$> derive_segments d (split_points a)).
Proof.
  exact (point_outside_file_adds_no_segment
           (mkApp "a.mp3" (Some "a.mp3") 60000 [2500] [] ("", info))
           (Click true (-50)) "01:01" 61000 ltac:(simpl; lia)).
Defined.

(** ** Export after an auto-split pass *)


